(** * bb_astromodels: the [absori] ionized-absorber model

    A shallow embedding of [bb_astromodels/xray/absorption.py] (classes
    [Absori] and [Integrate_Absori]) and the properties of it that the
    specification states.

    Conventions of the embedding.
    - A binary64 float is a real number ([R]); [np.exp], [np.log],
      [np.sqrt] and [np.power] are [exp], [ln], [sqrt] and [Rpower].  Rounding,
      overflow, [inf] and [nan] are outside the model.  [ln], [sqrt] and
      [Rpower] agree with NumPy on positive arguments only, so the concrete
      inputs used below keep every such argument positive.
    - [exp] on [R] is never 0, [np.exp] on binary64 is: it returns [0.0]
      once the exact value is at most [2^-1075].  The ranges of returned
      values are therefore stated with closed bounds, which hold with and
      without that underflow, and where a claim turns on it the underflow
      is modelled ([exp_binary64], [evaluate_binary64]).
    - The arrays whose shape the code fixes ([ion] (10,26,10), [sigma]
      (10,26,721), [atomicnumber] (10,), [num] (26,10), ...) are functions
      of their indices; a reduction along an axis is a bounded sum over that
      axis.  [_calc_num] works only when [_max_atomicnumber] is 26 (its
      [np.arange(1, max + 1)] must broadcast against the 26 stages, its
      loop assigns [num[1]] to [num[25]], and the shapes of [num] and
      [_mask_valid.T] must agree), so [num] has [n_stage] rows; on an
      object with another [_max_atomicnumber] the code raises there, which
      the model leaves out.
    - The arrays whose length comes from the caller or from the data files
      (the energies, the base energy grid, the abundances) are lists, with
      Python's indexing and slicing written out.
    - An exception is a [Raise] result; the abundance array that
      [np.copy] duplicates and [*=] updates in place lives in a store of
      arrays addressed by references. *)

From stdpp Require Import gmap list.
From Stdlib Require Import Reals Lra Lia ZArith.

Local Open Scope R_scope.

(** ** Exceptions and the two monads *)

Inductive exn : Set := IndexError | ValueError | ZeroDivisionError.

Inductive res (A : Type) : Type :=
  | Ok (a : A)
  | Raise (e : exn).
Arguments Ok {A} a.
Arguments Raise {A} e.

#[global] Instance res_ret : MRet res := λ A a, Ok a.
#[global] Instance res_bind : MBind res := λ A B f m,
  match m with Ok a => f a | Raise e => Raise e end.

(** References to 1-D float arrays and the store they live in. *)
Definition loc := positive.
Abbreviation store := (gmap loc (list R)).

(** A method that may read or update arrays and may raise. *)
Definition M (A : Type) : Type := store → res (A * store).

#[global] Instance M_ret : MRet M := λ A a σ, Ok (a, σ).
#[global] Instance M_bind : MBind M := λ A B f m σ,
  match m σ with Ok (a, σ') => f a σ' | Raise e => Raise e end.

Definition lift {A} (r : res A) : M A := λ σ,
  match r with Ok a => Ok (a, σ) | Raise e => Raise e end.

#[global] Instance Rlt_decision (x y : R) : Decision (x < y) := Rlt_dec x y.
#[global] Instance Rgt_decision (x y : R) : Decision (x > y) := Rgt_dec x y.
#[global] Instance Rle_decision (x y : R) : Decision (x <= y) := Rle_dec x y.
#[global] Instance Req_decision : EqDecision R := Req_dec_T.

(** ** NumPy and Python primitives *)

Module np.

(** [a[i]] for a Python index [i] on an array of length [n]: negative
    indices count from the end, anything else out of range raises. *)
Definition index (n : nat) (i : Z) : res nat :=
  if decide (0 ≤ i < Z.of_nat n)%Z then Ok (Z.to_nat i)
  else if decide (- Z.of_nat n ≤ i < 0)%Z then Ok (Z.to_nat (Z.of_nat n + i))
  else Raise IndexError.

Definition getitem (a : list R) (i : Z) : res R :=
  k ← index (length a) i;
  match a !! k with Some v => Ok v | None => Raise IndexError end.

Definition setitem (a : list R) (i : Z) (v : R) : res (list R) :=
  k ← index (length a) i; Ok (<[k:=v]> a).

(** A slice bound, clamped the way [slice.indices] does. *)
Definition bound (n : nat) (b : Z) : nat :=
  if decide (b < 0)%Z then Z.to_nat (Z.max 0 (Z.of_nat n + b))
  else Z.to_nat (Z.min b (Z.of_nat n)).

Definition stop_bound (n : nat) (stop : option Z) : nat :=
  match stop with Some b => bound n b | None => n end.

(** [a[start:stop]] *)
Definition slice (a : list R) (start : Z) (stop : option Z) : list R :=
  let s := bound (length a) start in
  let e := stop_bound (length a) stop in
  take (e - s) (drop s a).

(** [a[start:stop] = v] for an array [v] of the slice's length. *)
Definition set_slice (a : list R) (start : Z) (stop : option Z)
    (v : list R) : res (list R) :=
  let s := bound (length a) start in
  let e := stop_bound (length a) stop in
  if decide (length v = (e - s)%nat)
  then Ok (take s a ++ v ++ drop (s + (e - s)) a)
  else Raise ValueError.

(** [a[start:stop] *= c] *)
Definition imul_slice (a : list R) (start : Z) (stop : option Z)
    (c : R) : list R :=
  let s := bound (length a) start in
  let e := stop_bound (length a) stop in
  take s a ++ ((λ v, v * c) <$> take (e - s) (drop s a))
         ++ drop (s + (e - s)) a.

(** [a[i] *= c] *)
Definition imul_item (a : list R) (i : Z) (c : R) : res (list R) :=
  k ← index (length a) i; Ok (alter (λ v, v * c) k a).

Definition zeros (n : nat) : list R := replicate n 0.

(** [a - b] for two 1-D arrays of one length. *)
Definition sub (a b : list R) : res (list R) :=
  if decide (length a = length b) then Ok (zip_with Rminus a b)
  else Raise ValueError.

(** [np.sum] along an axis of extent [n]. *)
Fixpoint sum (n : nat) (f : nat → R) : R :=
  match n with
  | O => 0
  | S n' => sum n' f + f n'
  end.

(** [np.cumsum] along an axis, read at position [j]. *)
Definition cumsum (f : nat → R) (j : nat) : R := sum (S j) f.

(** [np.max] along an axis of extent [S n]. *)
Fixpoint max (n : nat) (f : nat → R) : R :=
  match n with
  | O => f O
  | S n' => Rmax (max n' f) (f n)
  end.

(** [np.searchsorted(xs, v)] (side "left") on an ascending array: the
    number of leading entries strictly below [v]. *)
Fixpoint searchsorted (xs : list R) (v : R) : nat :=
  match xs with
  | [] => O
  | x :: xs' => if decide (x < v) then S (searchsorted xs' v) else O
  end.

(** [k.clip(lo, hi)] on an index. *)
Definition clip (lo hi k : nat) : nat := Nat.min (Nat.max k lo) hi.

(** [int(r)] on a float: truncation toward zero. *)
Definition int (r : R) : Z :=
  if decide (0 <= r) then Int_part r else (- Int_part (- r))%Z.

(** [a / n] on a Python float and a Python int: division by zero raises.
    (The parameter values reach [evaluate] as Python floats; the declared
    initial value [0.] of [redshift] is one.  On NumPy scalars the same
    division would warn and give [inf] or [nan].) *)
Definition truediv (a : R) (n : Z) : res R :=
  if decide (n = 0%Z) then Raise ZeroDivisionError else Ok (a / IZR n).

End np.

(** Allocation of a fresh array, and access through a reference. *)
Definition alloc (a : list R) : M loc := λ σ,
  let r := fresh (dom σ) in Ok (r, <[r:=a]> σ).

Definition read (r : loc) : M (list R) := λ σ,
  match σ !! r with Some a => Ok (a, σ) | None => Raise ValueError end.

Definition store_set (r : loc) (a : list R) : M unit := λ σ, Ok (tt, <[r:=a]> σ).

(** [np.copy(a)]: a new array with the contents of [a]. *)
Definition np_copy (r : loc) : M loc := a ← read r; alloc a.

(** [a[start:stop] *= c] and [a[i] *= c] through the reference [a]. *)
Definition imul_slice_at (r : loc) (start : Z) (stop : option Z) (c : R)
    : M unit :=
  a ← read r; store_set r (np.imul_slice a start stop c).

Definition imul_item_at (r : loc) (i : Z) (c : R) : M unit :=
  a ← read r; a' ← lift (np.imul_item a i c); store_set r a'.

(** ** The [Absori] object *)

Definition n_elem : nat := 10.   (* H He C N O Ne Mg Si S Fe *)
Definition n_stage : nat := 26.
Definition n_bin : nat := 721.

(** What [_load_sigma] returns: the arrays it fills from the rows of the
    cross-section file, and the energy grid of the file. *)
Record sigma_data : Type := {
  ld_ion : nat → nat → nat → R;        (* [element][stage][coefficient] *)
  ld_sigma : nat → nat → nat → R;      (* [element][stage][bin] *)
  ld_atomicnumber : nat → nat;         (* [element] *)
  ld_energy : list R
}.

(** The attributes [_setup] assigns.  [calc_ion_spec_numba] is the helper
    imported from [bb_astromodels.utils.numba_functions]; its source is not
    part of this file's subject, so it is left arbitrary. *)
Record Absori : Type := {
  _ion : nat → nat → nat → R;          (* [element][stage][coefficient] *)
  _sigma : nat → nat → nat → R;        (* transposed: [bin][stage][element] *)
  _atomicnumber : nat → nat;
  _max_atomicnumber : nat;
  _base_energy : list R;
  _deltaE : list R;
  _abundance : loc;
  calc_ion_spec_numba : R → list R → list R → nat → R
}.

(** [_mask_valid[i, :n] = True] for [n = atomicnumber[i]]. *)
Definition _mask_valid (self : Absori) (i j : nat) : bool :=
  bool_decide (j < np.bound n_stage (Z.of_nat (_atomicnumber self i)))%nat.

(** [_mask_2[i, n] = True] for [n = atomicnumber[i] - 1].  (Where the
    index is out of range [_setup] itself raises; the row then has no
    [True] here.) *)
Definition _mask_2 (self : Absori) (i j : nat) : bool :=
  match np.index n_stage (Z.of_nat (_atomicnumber self i) - 1) with
  | Ok k => bool_decide (j = k)
  | Raise _ => false
  end.

(** The bin widths of [_setup]:
    [deltaE = zeros(len(b)); deltaE[0] = b[1] - b[0];
     deltaE[-1] = b[-1] - b[-2]; deltaE[1:-1] = (b[2:] - b[0:-2]) / 2]. *)
Definition deltaE (b : list R) : res (list R) :=
  let d := np.zeros (length b) in
  b1 ← np.getitem b 1;
  b0 ← np.getitem b 0;
  d ← np.setitem d 0 (b1 - b0);
  bm1 ← np.getitem b (-1);
  bm2 ← np.getitem b (-2);
  d ← np.setitem d (-1) (bm1 - bm2);
  diff ← np.sub (np.slice b 2 None) (np.slice b 0 (Some (-2)%Z));
  np.set_slice d 1 (Some (-1)%Z) ((λ v, v / 2) <$> diff).

(** [int(np.max(self._atomicnumber))] over the ten elements. *)
Definition max_atomicnumber (atomicnumber : nat → nat) : nat :=
  foldr (λ i m, Nat.max (atomicnumber i) m) 0%nat (seq 0 n_elem).

(** The second mask loop of [_setup],
    [for i, n in enumerate(self._atomicnumber - 1):
       self._mask_2[i, n] = True],
    from element [i] on for [count] elements: every index is checked
    against the 26 stages, and the first one out of range raises.  (The
    first loop, [self._mask_valid[i, :n] = True], assigns to a slice and
    cannot raise.)  What the two loops leave in the masks is [_mask_valid]
    and [_mask_2] above. *)
Fixpoint mask_2_loop (atomicnumber : nat → nat) (i count : nat) : res unit :=
  match count with
  | O => Ok ()
  | S count' =>
      _ ← np.index n_stage (Z.of_nat (atomicnumber i) - 1);
      mask_2_loop atomicnumber (S i) count'
  end.

(** [_setup], given what the two loaders return: the attributes, the mask
    loops, the bin widths, the abundances, in the order of the source.
    (Between the masks and the bin widths the source builds the SciPy
    interpolator of [sigma] over the grid; [_interp_sigma] below is that
    object applied.) *)
Definition _setup (d : sigma_data) (abundance : list R)
    (ion_spec : R → list R → list R → nat → R) : M Absori :=
  _ ← lift (mask_2_loop (ld_atomicnumber d) 0 n_elem);
  dE ← lift (deltaE (ld_energy d));
  ab ← alloc abundance;
  mret {| _ion := ld_ion d;
          _sigma := λ k j i, ld_sigma d i j k;
          _atomicnumber := ld_atomicnumber d;
          _max_atomicnumber := max_atomicnumber (ld_atomicnumber d);
          _base_energy := ld_energy d;
          _deltaE := dE;
          _abundance := ab;
          calc_ion_spec_numba := ion_spec |}.

(** [_calc_ion_spec]; the [lru_cache] around it returns what the wrapped
    function returns. *)
Definition _calc_ion_spec (self : Absori) (gamma : R) : nat → R :=
  calc_ion_spec_numba self gamma (_base_energy self) (_deltaE self).

(** *** The ionization balance, [_calc_num] *)

Section calc_num.
Context (self : Absori) (spec : nat → R) (temp xi : R).

Definition t4 : R := 0.0001 * temp.
Definition tfact : R := 1.033e-3 / sqrt t4.

Definition xil : R := if decide (xi <= 0) then -100 else ln xi.

Definition e1 (i j : nat) : R := exp (- _ion self i j 4 / t4).
Definition e2 (i j : nat) : R := exp (- _ion self i j 6 / t4).

Definition arec_general (i j : nat) : R :=
  _ion self i j 1 * Rpower t4 (- _ion self i j 2)
  + _ion self i j 3 * Rpower t4 (-1.5) * e1 i j
    * (1 + _ion self i j 5 * e2 i j).

Definition z2 (i : nat) : R := INR (_atomicnumber self i ^ 2).
Definition y (i : nat) : R := 15.8 * z2 i / t4.
Definition arec2 (i : nat) : R :=
  tfact * z2 i * (1.735 + ln (y i) + 1 / (6 * y i)).

(** [arec[self._mask_2] = arec2]: [_mask_2] has one [True] per row, so
    row [i] takes [arec2[i]]. *)
Definition arec (i j : nat) : R :=
  if _mask_2 self i j then arec2 i else arec_general i j.

Definition intgral (i j : nat) : R :=
  np.sum n_bin (λ k, _sigma self k j i * spec k).

Definition ratio (i j : nat) : R :=
  if decide (arec i j = 0) then 0
  else ln (3.2749e-6 * intgral i j / arec i j).

Definition ratcumsum (i j : nat) : R := np.cumsum (ratio i) j.

(** [mul] before [mult] is subtracted. *)
Definition mul_raw (i j : nat) : R :=
  if _mask_valid self i j then ratcumsum i j + INR (j + 1) * xil
  else - 10 ^ 99.

Definition mult (i : nat) : R := np.max (n_stage - 1) (mul_raw i).

Definition mul (i j : nat) : R := mul_raw i j - mult i.

Definition emul (i j : nat) : R :=
  if _mask_valid self i j then exp (mul i j) else 0.

Definition s (i : nat) : R := np.sum n_stage (emul i) + exp (- mult i).

(** The rows of [num] before the exponential:
    [num[0] = -mult - log(s)], [num[j] = num[j-1] + ratio[:, j-1] + xil]. *)
Fixpoint num_log (j i : nat) : R :=
  match j with
  | O => - mult i - ln (s i)
  | S j' => num_log j' i + ratio i j' + xil
  end.

(** [num[j][i]] as returned: stage [j] of element [i]. *)
Definition _calc_num (j i : nat) : R :=
  if _mask_valid self i j then exp (num_log j i) else 0.

End calc_num.

(** *** Interpolation of the cross-sections *)

(** [scipy.interpolate.interp1d(base_energy, sigma, axis=0)] at one new
    abscissa, as SciPy's linear kind computes it: locate the interval with
    [searchsorted], clip the index to [1 .. len - 1], and evaluate
    [slope * (x_new - x_lo) + y_lo]. *)
Definition _interp_sigma (self : Absori) (x_new : R) (j i : nat) : R :=
  let x := _base_energy self in
  let hi := np.clip 1 (length x - 1) (np.searchsorted x x_new) in
  let lo := (hi - 1)%nat in
  let x_lo := nth lo x 0 in
  let x_hi := nth hi x 0 in
  let y_lo := _sigma self lo j i in
  let y_hi := _sigma self hi j i in
  let slope := (y_hi - y_lo) / (x_hi - x_lo) in
  slope * (x_new - x_lo) + y_lo.

(** One row of the array [_interpolate_sigma] builds: the three masked
    assignments, in the order of the source. *)
Definition sigma_row (self : Absori) (b_first b_last e : R) (j i : nat) : R :=
  let mask1 := bool_decide (e > b_last) in
  let mask2 := bool_decide (e < b_first) in
  let mask3 := negb mask1 && negb mask2 in
  let sigma := 0 in
  let sigma := if mask3 then _interp_sigma self e j i else sigma in
  let sigma :=
    if mask1 then _sigma self 720 j i * Rpower (e / b_last) (-3.0)
    else sigma in
  let sigma := if mask2 then _sigma self 0 j i else sigma in
  sigma.

Definition _interpolate_sigma (self : Absori) (ekev : list R)
    : res (list (nat → nat → R)) :=
  let e := (λ v, 1000 * v) <$> ekev in
  b_last ← np.getitem (_base_energy self) (-1);
  b_first ← np.getitem (_base_energy self) 0;
  Ok ((λ v, sigma_row self b_first b_last v) <$> e).

(** *** Opacity and transmission *)

(** [ab = np.copy(self._abundance); ab[2:-1] *= 10 ** abundance;
     ab[-1] *= 10 ** fe_abundance] *)
Definition adjusted_abundance (self : Absori) (abundance fe_abundance : R)
    : M loc :=
  ab ← np_copy (_abundance self);
  _ ← imul_slice_at ab 2 (Some (-1)%Z) (Rpower 10 abundance);
  _ ← imul_item_at ab (-1) (Rpower 10 fe_abundance);
  mret ab.

(** [num *= ab]: the (26,10) matrix times the (10,) vector, along the
    element axis. *)
Definition weight (num : nat → nat → R) (ab : list R)
    : res (nat → nat → R) :=
  if decide (length ab = n_elem) then Ok (λ j i, num j i * nth i ab 0)
  else Raise ValueError.

(** [np.sum(num * sigma, axis=(1, 2))] for one energy. *)
Definition sum_stage_elem (f : nat → nat → R) : R :=
  np.sum n_stage (λ j, np.sum n_elem (λ i, f j i)).

Definition _calc_opacity (self : Absori)
    (e : list R) (temp xi gamma abundance fe_abundance : R) : M (list R) :=
  let spec := _calc_ion_spec self gamma in
  let num := _calc_num self spec temp xi in
  ab ← adjusted_abundance self abundance fe_abundance;
  abv ← read ab;
  num ← lift (weight num abv);
  sigma ← lift (_interpolate_sigma self e);
  mret ((λ sg, sum_stage_elem (λ j i, num j i * sg j i) * 6.6e-5) <$> sigma).

Definition evaluate (self : Absori)
    (x : list R) (NH redshift temp xi gamma abundance fe_abundance : R)
    : M (list R) :=
  let e := (λ v, v * (1 + redshift)) <$> x in
  opacity ← _calc_opacity self e temp xi gamma abundance fe_abundance;
  mret ((λ o, exp (- NH * o)) <$> opacity).

(** [np.exp] on binary64 where it underflows.  The smallest positive
    binary64 number is [2^-1074]; an exact value of at most half of it,
    [exp x <= 2^-1075], is returned as [0.0].  Above that the exact value
    is kept, as everywhere in this file. *)
Definition exp_binary64 (x : R) : R :=
  if decide (x <= -1075 * ln 2) then 0 else exp x.

(** [evaluate] with the underflow of its last line,
    [np.exp(-NH * opacity)]. *)
Definition evaluate_binary64 (self : Absori)
    (x : list R) (NH redshift temp xi gamma abundance fe_abundance : R)
    : M (list R) :=
  let e := (λ v, v * (1 + redshift)) <$> x in
  opacity ← _calc_opacity self e temp xi gamma abundance fe_abundance;
  mret ((λ o, exp_binary64 (- NH * o)) <$> opacity).

(** ** [Integrate_Absori]

    Its [_setup] assigns the attributes of [Absori] and five constants; its
    [_calc_num], [_interpolate_sigma] and [_calc_ion_spec] are textually
    those of [Absori], so the definitions above serve both classes. *)

Module Integrate_Absori.

Definition _omegam : R := 0.3.
Definition _omegal : R := 0.7.
Definition _h0 : R := 70.
Definition _cmpermpc : R := 3.08568e24.
Definition _c : R := 2.99792458e5.

(** The body of [for i in range(nz)], run [count] times from the state
    [(zz, taus)]. *)
Fixpoint shells (self : Absori) (x : list R) (num : nat → nat → R)
    (n0 delta zsam : R) (count : nat) (zz : R) (taus : list R)
    : res (list R) :=
  match count with
  | O => Ok taus
  | S count' =>
      let z1 := zz + 1.0 in
      let n := n0 * Rpower z1 delta in
      let zf := z1 ^ 2 / sqrt (_omegam * z1 ^ 3 + _omegal) in
      let zf := zf * (zsam * _c * n * _cmpermpc / _h0) in
      sigma ← _interpolate_sigma self ((λ v, v * z1) <$> x);
      let xsec :=
        (λ sg, sum_stage_elem (λ j i, num j i * sg j i) * 6.6e-5 * 1e-22)
          <$> sigma in
      let taus := zip_with Rplus taus ((λ v, v * zf) <$> xsec) in
      shells self x num n0 delta zsam count' (zz + zsam) taus
  end.

Definition evaluate (self : Absori)
    (x : list R) (n0 delta redshift temp xi gamma abundance fe_abundance : R)
    : M (list R) :=
  let nz := np.int (redshift / 0.02) in
  zsam ← lift (np.truediv redshift nz);
  let zz := zsam * 0.5 in
  let spec := _calc_ion_spec self gamma in
  let num := _calc_num self spec temp xi in
  ab ← adjusted_abundance self abundance fe_abundance;
  abv ← read ab;
  num ← lift (weight num abv);
  let taus := np.zeros (length x) in
  taus ← lift (shells self x num n0 delta zsam (Z.to_nat nz) zz taus);
  mret ((λ t, exp (- t)) <$> taus).

End Integrate_Absori.

(** ** Quantities the specification talks about *)

(** The sum over all rows (stages) of [num], for element [i]. *)
Definition stage_total (num : nat → nat → R) (i : nat) : R :=
  np.sum n_stage (λ j, num j i).

(** The population-weighted mean stage of element [i] over the rows of
    [num]. *)
Definition mean_stage (num : nat → nat → R) (i : nat) : R :=
  np.sum n_stage (λ j, INR j * num j i).

(** The share of element [i] that [_calc_num] normalises by but gives no
    row: the term [emul[i][Z - 1]] of [s], i.e. the population one stage
    above the last stored row (the fully stripped ion). *)
Definition stripped_fraction (self : Absori) (spec : nat → R) (temp xi : R)
    (i : nat) : R :=
  emul self spec temp xi i (_atomicnumber self i - 1)
  / s self spec temp xi i.

(** The contents of the local array [ab] once both offsets are applied
    to a copy [a] of the stored abundances. *)
Definition adjusted (a : list R) (abundance fe_abundance : R) : list R :=
  alter (λ v, v * Rpower 10 fe_abundance) (length a - 1)%nat
    (np.imul_slice a 2 (Some (-1)%Z) (Rpower 10 abundance)).

(** The weight of grid point [i] in the composite trapezoidal rule on the
    grid [b], in the words of the specification ("trapezoidal bin widths",
    "trapezoidal end weights"): half the sum of the intervals adjacent to
    the point. *)
Definition trapezoid_weight (b : list R) (i : nat) : R :=
  ((if decide (i + 1 < length b)%nat then nth (i + 1) b 0 - nth i b 0 else 0)
   + (if decide (1 ≤ i)%nat then nth i b 0 - nth (i - 1) b 0 else 0)) / 2.

(** ** A small instance

    Ten elements with the atomic numbers of H He C N O Ne Mg Si S Fe, a
    grid of 721 energies 1, 2, ..., 721 eV, unit cross-sections on the
    valid stages, and one nonzero recombination coefficient.  It is used
    where a property is evaluated at a concrete input. *)

Definition toy_atomicnumber (i : nat) : nat :=
  nth i [1; 2; 6; 7; 8; 10; 12; 14; 16; 26]%nat 0%nat.

Definition toy_energy : list R := (λ k, INR k) <$> seq 1 n_bin.

Definition toy_abundance : loc := 1%positive.

Definition toy : Absori := {|
  _ion := λ i j c,
    if decide (j < toy_atomicnumber i ∧ c = 1)%nat then 3.2749e-6 else 0;
  _sigma := λ k j i, if decide (j < toy_atomicnumber i)%nat then 1 else 0;
  _atomicnumber := toy_atomicnumber;
  _max_atomicnumber := 26;
  _base_energy := toy_energy;
  _deltaE := replicate n_bin 1;
  _abundance := toy_abundance;
  calc_ion_spec_numba :=
    λ gamma b dE k, Rpower (nth k b 0) (- gamma) * nth k dE 0
|}.

Definition toy_spec : nat → R := λ _, 1 / 721.

Definition toy_store : store := {[ toy_abundance := replicate n_elem 1 ]}.

(** ** The loader of the cross-section file *)

(** The rows of the [SIGMAS] table of the cross-section file, as
    [_load_sigma] reads them: the column [Z], the ten [IONDATA]
    coefficients and the 721 [SIGMA] samples of each row (the column [ION]
    is read and never used). *)
Record fits_row : Type := {
  row_Z : Z;
  row_IONDATA : nat → R;
  row_SIGMA : nat → R
}.

(** [a[g] = v] and [a[g, s, k] = v] on arrays of fixed shape. *)
Definition set1 (a : nat → Z) (g : nat) (v : Z) : nat → Z :=
  λ g', if decide (g' = g) then v else a g'.

Definition set3 (a : nat → nat → nat → R) (g s k : nat) (v : R)
    : nat → nat → nat → R :=
  λ g' s' k', if decide (g' = g ∧ s' = s ∧ k' = k) then v else a g' s' k'.

(** [for k in range(n): a[g, s, k] = f(k)] *)
Fixpoint fill (n : nat) (a : nat → nat → nat → R) (g s : nat) (f : nat → R)
    : nat → nat → nat → R :=
  match n with
  | O => a
  | S n' => set3 (fill n' a g s f) g s n' (f n')
  end.

(** The variables of the loop over the rows. *)
Record load_state : Type := {
  st_ion : nat → nat → nat → R;
  st_sigma : nat → nat → nat → R;
  st_atomicnumber : nat → Z;
  currentZ : Z;
  iZ : Z;
  iIon : Z
}.

(** One pass through the body of [for i in range(len(znumber))]. *)
Definition load_row (st : load_state) (r : fits_row) : res load_state :=
  st ← (if decide (row_Z r ≠ currentZ st) then
          let iZ' := (iZ st + 1)%Z in
          g ← np.index n_elem iZ';
          Ok {| st_ion := st_ion st; st_sigma := st_sigma st;
                st_atomicnumber := set1 (st_atomicnumber st) g (row_Z r);
                currentZ := row_Z r; iZ := iZ'; iIon := (-1)%Z |}
        else Ok st);
  let iIon' := (iIon st + 1)%Z in
  g ← np.index n_elem (iZ st);
  s ← np.index n_stage iIon';
  let ion := fill 10 (st_ion st) g s (row_IONDATA r) in
  let ion := set3 ion g s 1 (ion g s 1%nat * 1.0e10) in
  let ion := set3 ion g s 3 (ion g s 3%nat * 1.0e04) in
  let ion := set3 ion g s 4 (ion g s 4%nat * 1.0e-04) in
  let ion := set3 ion g s 6 (ion g s 6%nat * 1.0e-04) in
  let sigma :=
    fill n_bin (st_sigma st) g s (λ k, row_SIGMA r k / 6.6e-27) in
  Ok {| st_ion := ion; st_sigma := sigma;
        st_atomicnumber := st_atomicnumber st;
        currentZ := currentZ st; iZ := iZ st; iIon := iIon' |}.

Fixpoint load_rows (st : load_state) (rows : list fits_row)
    : res load_state :=
  match rows with
  | [] => Ok st
  | r :: rows' => st' ← load_row st r; load_rows st' rows'
  end.

(** What [_load_sigma] returns, with the atomic numbers as the integers
    the file holds ([sigma_data] above has them as the stage counts they
    are used as).  [np.empty] leaves the atomic numbers unset: [unset]
    stands for whatever the fresh array holds. *)
Record loaded : Type := {
  ion_ : nat → nat → nat → R;
  sigma_ : nat → nat → nat → R;
  atomicnumber_ : nat → Z;
  energy_ : list R
}.

Definition _load_sigma (unset : nat → Z) (rows : list fits_row)
    (energy : list R) : res loaded :=
  st ← load_rows {| st_ion := λ _ _ _, 0; st_sigma := λ _ _ _, 0;
                    st_atomicnumber := unset;
                    currentZ := (-1)%Z; iZ := (-1)%Z; iIon := (-1)%Z |} rows;
  Ok {| ion_ := st_ion st; sigma_ := st_sigma st;
        atomicnumber_ := st_atomicnumber st; energy_ := energy |}.

(** The unit conversion of coefficient [k]. *)
Definition converted (k : nat) (v : R) : R :=
  if decide (k = 1)%nat then v * 1.0e10
  else if decide (k = 3)%nat then v * 1.0e04
  else if decide (k = 4 ∨ k = 6)%nat then v * 1.0e-04
  else v.

(** A table in groups: every group is a nonempty run of rows with one
    [Z], neighbouring groups have different [Z], and the first [Z] is not
    the initial [currentZ]. *)
Definition group_Z (grp : list fits_row) : Z :=
  match grp with r :: _ => row_Z r | [] => (-1)%Z end.

Fixpoint grouped (prev : Z) (gs : list (list fits_row)) : Prop :=
  match gs with
  | [] => True
  | grp :: gs' =>
      grp ≠ [] ∧ Forall (λ r, row_Z r = group_Z grp) grp ∧
      group_Z grp ≠ prev ∧ grouped (group_Z grp) gs'
  end.

(** A table of two elements: one row of [Z = 1], two rows of [Z = 2]. *)
Definition two_elements : list (list fits_row) :=
  [ [ {| row_Z := 1; row_IONDATA := λ k, INR k; row_SIGMA := λ _, 6.6e-27 |} ];
    [ {| row_Z := 2; row_IONDATA := λ _, 1; row_SIGMA := λ k, INR k |};
      {| row_Z := 2; row_IONDATA := λ _, 2; row_SIGMA := λ _, 0 |} ] ].

(** Cells of the (element, stage) grid and the rows written to them. *)
Definition overlay (c : nat → nat → option fits_row) (n : nat)
    (f : fits_row → nat → R) (a : nat → nat → nat → R)
    : nat → nat → nat → R :=
  λ g s k,
    match c g s with
    | Some r => if decide (k < n)%nat then f r k else a g s k
    | None => a g s k
    end.

Definition writes (c : nat → nat → option fits_row) (st st' : load_state)
    : Prop :=
  (∀ g s k, st_ion st' g s k
     = overlay c 10 (λ r k, converted k (row_IONDATA r k)) (st_ion st) g s k) ∧
  (∀ g s k, st_sigma st' g s k
     = overlay c n_bin (λ r k, row_SIGMA r k / 6.6e-27) (st_sigma st) g s k).

Definition one_cell (g s : nat) (r : fits_row) (g' s' : nat)
    : option fits_row :=
  if decide (g' = g ∧ s' = s) then Some r else None.

Definition run_cells (g s0 : nat) (rs : list fits_row) (g' s' : nat)
    : option fits_row :=
  if decide (g' = g ∧ s0 ≤ s')%nat then rs !! (s' - s0)%nat else None.

Definition group_cells (g0 : nat) (gs : list (list fits_row)) (g' s' : nat)
    : option fits_row :=
  if decide (g0 ≤ g')%nat then grp ← gs !! (g' - g0)%nat; grp !! s'
  else None.

(** * Properties *)

(** ** Python indexing and the bin widths *)

Lemma index_nonneg n (i : Z) :
  (0 ≤ i < Z.of_nat n)%Z → np.index n i = Ok (Z.to_nat i).
Proof. intros H. unfold np.index. by rewrite decide_True by lia. Qed.

Lemma index_neg n (i : Z) :
  (- Z.of_nat n ≤ i < 0)%Z → np.index n i = Ok (n - Z.to_nat (- i))%nat.
Proof.
  intros H. unfold np.index. rewrite decide_False by lia.
  rewrite decide_True by lia. f_equal. lia.
Qed.

Lemma getitem_nonneg (a : list R) (i : Z) :
  (0 ≤ i < Z.of_nat (length a))%Z →
  np.getitem a i = Ok (nth (Z.to_nat i) a 0).
Proof.
  intros H. unfold np.getitem. rewrite index_nonneg by done. simpl.
  rewrite nth_lookup.
  destruct (lookup_lt_is_Some_2 a (Z.to_nat i)) as [v ->]; [lia|done].
Qed.

Lemma getitem_neg (a : list R) (i : Z) :
  (- Z.of_nat (length a) ≤ i < 0)%Z →
  np.getitem a i = Ok (nth (length a - Z.to_nat (- i)) a 0).
Proof.
  intros H. unfold np.getitem. rewrite index_neg by done. simpl.
  rewrite nth_lookup.
  destruct (lookup_lt_is_Some_2 a (length a - Z.to_nat (- i))) as [v ->];
    [lia|done].
Qed.

Lemma bound_nonneg n (i : Z) :
  (0 ≤ i ≤ Z.of_nat n)%Z → np.bound n i = Z.to_nat i.
Proof. intros H. unfold np.bound. rewrite decide_False by lia. lia. Qed.

Lemma bound_neg n (i : Z) :
  (- Z.of_nat n ≤ i < 0)%Z → np.bound n i = (n - Z.to_nat (- i))%nat.
Proof. intros H. unfold np.bound. rewrite decide_True by lia. lia. Qed.

Lemma deltaE_spec (b : list R) :
  (2 ≤ length b)%nat →
  ∃ d, deltaE b = Ok d ∧ length d = length b ∧
    nth 0 d 0 = nth 1 b 0 - nth 0 b 0 ∧
    nth (length b - 1) d 0 = nth (length b - 1) b 0 - nth (length b - 2) b 0 ∧
    ∀ i, (1 ≤ i ≤ length b - 2)%nat →
      nth i d 0 = (nth (i + 1) b 0 - nth (i - 1) b 0) / 2.
Proof.
  intros Hn. unfold deltaE.
  rewrite (getitem_nonneg b 1) by lia. cbn [mbind res_bind].
  rewrite (getitem_nonneg b 0) by lia. cbn [mbind res_bind].
  unfold np.setitem at 2. rewrite (index_nonneg _ 0); last (unfold np.zeros; rewrite length_replicate; lia).
  cbn [mbind res_bind].
  rewrite (getitem_neg b (-1)) by lia. cbn [mbind res_bind].
  rewrite (getitem_neg b (-2)) by lia. cbn [mbind res_bind].
  unfold np.setitem. rewrite length_insert. unfold np.zeros. rewrite length_replicate.
  rewrite (index_neg _ (-1)) by lia. cbn [mbind res_bind].
  unfold np.sub, np.slice, np.stop_bound.
  rewrite (bound_nonneg _ 2), (bound_nonneg _ 0), (bound_neg _ (-2)) by lia.
  change (Z.to_nat 0) with 0%nat. change (Z.to_nat 1) with 1%nat.
  change (Z.to_nat 2) with 2%nat. change (Z.to_nat (- -1)) with 1%nat.
  change (Z.to_nat (- -2)) with 2%nat.
  rewrite decide_True; last (rewrite !length_take, !length_drop; lia).
  cbn [mbind res_bind].
  unfold np.set_slice, np.stop_bound. rewrite !length_insert, length_replicate.
  rewrite (bound_nonneg _ 1), (bound_neg _ (-1)) by lia.
  change (Z.to_nat 1) with 1%nat. change (Z.to_nat (- -1)) with 1%nat.
  rewrite decide_True; last first.
  { rewrite length_fmap, length_zip_with, !length_take, !length_drop. lia. }
  eexists. split; [reflexivity|].
  set (n := length b) in *.
  set (d2 := <[(n - 1)%nat:=_]> (<[0%nat:=_]> (replicate n 0))).
  set (mid := (λ v, v / 2) <$> _).
  assert (Hd2 : length d2 = n) by (unfold d2; rewrite !length_insert, length_replicate; done).
  assert (Hmid : length mid = (n - 2)%nat).
  { unfold mid. rewrite length_fmap, length_zip_with, !length_take, !length_drop. lia. }
  split; [|split; [|split]].
  - rewrite !length_app, length_take, length_drop, Hmid, Hd2. lia.
  - rewrite nth_lookup, lookup_app_l by (rewrite length_take; lia).
    rewrite lookup_take_lt by lia. unfold d2.
    destruct (decide (n - 1 = 0)%nat); [lia|].
    rewrite list_lookup_insert_ne by done.
    rewrite list_lookup_insert_eq by (rewrite length_replicate; lia). done.
  - rewrite nth_lookup, lookup_app_r by (rewrite length_take; lia).
    rewrite lookup_app_r by (rewrite length_take, Hmid; lia).
    rewrite lookup_drop, length_take, Hmid, Hd2.
    replace (1 + (n - 1 - 1) + (n - 1 - 1 `min` n - (n - 2)))%nat with (n - 1)%nat by lia.
    unfold d2. rewrite list_lookup_insert_eq by (rewrite length_insert, length_replicate; lia).
    simpl. f_equal. 
  - intros i Hi.
    rewrite nth_lookup, lookup_app_r by (rewrite length_take; lia).
    rewrite lookup_app_l by (rewrite length_take, Hmid; lia).
    rewrite length_take, Hd2. unfold mid.
    rewrite list_lookup_fmap, lookup_zip_with.
    rewrite !lookup_take_lt by lia. rewrite !lookup_drop.
    replace (2 + (i - (1 `min` n)))%nat with (i + 1)%nat by lia.
    replace (0 + (i - (1 `min` n)))%nat with (i - 1)%nat by lia.
    rewrite !nth_lookup.
    destruct (lookup_lt_is_Some_2 b (i + 1)) as [v1 ->]; [lia|].
    destruct (lookup_lt_is_Some_2 b (i - 1)) as [v2 ->]; [lia|]. done.
Qed.

(** ** Bounded sums *)

Lemma sum_ext n (f g : nat → R) :
  (∀ j, (j < n)%nat → f j = g j) → np.sum n f = np.sum n g.
Proof.
  induction n as [|n IH]; intros H; simpl; [done|].
  rewrite IH, (H n) by (intros; try apply H; lia). done.
Qed.

Lemma sum_plus n (f g : nat → R) :
  np.sum n (λ j, f j + g j) = np.sum n f + np.sum n g.
Proof. induction n as [|n IH]; simpl; [lra|]. rewrite IH. lra. Qed.

Lemma sum_scal_l n c (f : nat → R) :
  np.sum n (λ j, c * f j) = c * np.sum n f.
Proof. induction n as [|n IH]; simpl; [lra|]. rewrite IH. lra. Qed.

Lemma sum_scal_r n c (f : nat → R) :
  np.sum n (λ j, f j * c) = np.sum n f * c.
Proof. induction n as [|n IH]; simpl; [lra|]. rewrite IH. lra. Qed.

Lemma sum_nonneg n (f : nat → R) :
  (∀ j, (j < n)%nat → 0 <= f j) → 0 <= np.sum n f.
Proof.
  induction n as [|n IH]; intros H; simpl; [lra|].
  assert (0 <= np.sum n f) by (apply IH; intros; apply H; lia).
  assert (0 <= f n) by (apply H; lia). lra.
Qed.

Lemma sum_pos n (f : nat → R) k :
  (∀ j, (j < n)%nat → 0 <= f j) → (k < n)%nat → 0 < f k → 0 < np.sum n f.
Proof.
  induction n as [|n IH]; intros H Hk Hpos; [lia|]. simpl.
  assert (0 <= np.sum n f) by (apply sum_nonneg; intros; apply H; lia).
  assert (0 <= f n) by (apply H; lia).
  destruct (decide (k = n)) as [->|]; [lra|].
  assert (0 < np.sum n f) by (apply IH; [intros; apply H; lia|lia|done]).
  lra.
Qed.

Lemma sum_zero_tail n m (f : nat → R) :
  (n ≤ m)%nat → (∀ j, (n ≤ j < m)%nat → f j = 0) → np.sum m f = np.sum n f.
Proof.
  induction m as [|m IH]; intros Hnm H.
  - by replace n with 0%nat by lia.
  - destruct (decide (n = S m)) as [->|]; [done|]. simpl.
    rewrite IH, H by (intros; try apply H; lia). lra.
Qed.

Lemma sum_shift n (f : nat → R) :
  np.sum (S n) f = f 0%nat + np.sum n (λ j, f (S j)).
Proof.
  induction n as [|n IH]; [simpl; lra|].
  change (np.sum (S (S n)) f) with (np.sum (S n) f + f (S n)).
  rewrite IH. simpl. lra.
Qed.

Lemma sum_const n c : np.sum n (λ _, c) = INR n * c.
Proof.
  induction n as [|n IH]; [simpl; lra|].
  change (np.sum (S n) (λ _, c)) with (np.sum n (λ _, c) + c).
  rewrite IH, S_INR. lra.
Qed.

(** ** The stage masks *)

Section masks.
Context (self : Absori) (i : nat).
Hypothesis HZ : (1 ≤ _atomicnumber self i ≤ n_stage)%nat.

Lemma mask_valid_true j :
  (j < _atomicnumber self i)%nat → _mask_valid self i j = true.
Proof.
  intros Hj. unfold _mask_valid, np.bound, n_stage in *.
  rewrite decide_False by lia. apply bool_decide_eq_true. lia.
Qed.

Lemma mask_valid_false j :
  (_atomicnumber self i ≤ j)%nat → _mask_valid self i j = false.
Proof.
  intros Hj. unfold _mask_valid, np.bound, n_stage in *.
  rewrite decide_False by lia. apply bool_decide_eq_false. lia.
Qed.

Lemma mask_2_spec j :
  _mask_2 self i j = bool_decide (j = (_atomicnumber self i - 1)%nat).
Proof.
  unfold _mask_2, np.index, n_stage in *.
  rewrite decide_True by lia. apply bool_decide_ext. lia.
Qed.

End masks.

(** ** The closed form of the populations *)

Section balance.
Context (self : Absori) (spec : nat → R) (temp xi : R) (i : nat).
Hypothesis HZ : (1 ≤ _atomicnumber self i ≤ n_stage)%nat.

Local Abbreviation Zi := (_atomicnumber self i).
Local Abbreviation ratio_ := (ratio self spec temp i).
Local Abbreviation xil_ := (xil xi).
Local Abbreviation mult_ := (mult self spec temp xi i).
Local Abbreviation s_ := (s self spec temp xi i).
Local Abbreviation emul_ := (emul self spec temp xi i).
Local Abbreviation num := (_calc_num self spec temp xi).

Lemma num_log_unfold j :
  num_log self spec temp xi j i =
  - mult_ - ln s_ + (np.sum j ratio_ + INR j * xil_).
Proof.
  induction j as [|j IH]; [simpl; lra|].
  change (num_log self spec temp xi (S j) i)
    with (num_log self spec temp xi j i + ratio_ j + xil_).
  rewrite IH, S_INR. simpl. lra.
Qed.

Lemma emul_valid j :
  (j < Zi)%nat →
  emul_ j = exp (np.sum (S j) ratio_ + INR (S j) * xil_ - mult_).
Proof.
  intros Hj. unfold emul, mul, mul_raw. rewrite mask_valid_true by done.
  unfold ratcumsum, np.cumsum. by replace (j + 1)%nat with (S j) by lia.
Qed.

Lemma emul_nonneg j : 0 <= emul_ j.
Proof.
  unfold emul. destruct (_mask_valid self i j); [|lra].
  left. apply exp_pos.
Qed.

Lemma s_pos : 0 < s_.
Proof.
  unfold s. pose proof (exp_pos (- mult_)).
  pose proof (sum_nonneg n_stage emul_ (λ j _, emul_nonneg j)). lra.
Qed.

Lemma s_split :
  s_ = np.sum (Zi - 1) emul_ + emul_ (Zi - 1)%nat + exp (- mult_).
Proof.
  unfold s.
  rewrite (sum_zero_tail Zi n_stage) by
    (try lia; intros j Hj; unfold emul; by rewrite mask_valid_false by lia).
  replace Zi with (S (Zi - 1)) at 1 by lia. done.
Qed.

Lemma num_first : num 0%nat i = exp (- mult_) / s_.
Proof.
  unfold _calc_num. rewrite mask_valid_true by lia. cbn [num_log].
  unfold Rminus. rewrite exp_plus, (exp_Ropp (ln s_)), exp_ln by apply s_pos.
  done.
Qed.

Lemma num_next j :
  (S j < Zi)%nat → num (S j) i = emul_ j / s_.
Proof.
  intros Hj. unfold _calc_num. rewrite mask_valid_true by done.
  rewrite num_log_unfold, emul_valid by lia.
  replace (- mult_ - ln s_ + (np.sum (S j) ratio_ + INR (S j) * xil_))
    with ((np.sum (S j) ratio_ + INR (S j) * xil_ - mult_) + - ln s_) by lra.
  rewrite exp_plus, (exp_Ropp (ln s_)), exp_ln by apply s_pos. done.
Qed.

Lemma num_invalid j : (Zi ≤ j)%nat → num j i = 0.
Proof. intros Hj. unfold _calc_num. by rewrite mask_valid_false. Qed.

Lemma num_nonneg j : 0 <= num j i.
Proof.
  unfold _calc_num. destruct (_mask_valid self i j); [|lra].
  left. apply exp_pos.
Qed.

Lemma stage_total_closed :
  stage_total num i = (exp (- mult_) + np.sum (Zi - 1) emul_) / s_.
Proof.
  unfold stage_total.
  rewrite (sum_zero_tail Zi n_stage) by (try lia; intros; apply num_invalid; lia).
  replace Zi with (S (Zi - 1)) at 1 by lia.
  rewrite sum_shift, num_first.
  rewrite (sum_ext _ _ (λ j, emul_ j * / s_)) by (intros; rewrite num_next by lia; done).
  rewrite sum_scal_r. unfold Rdiv. lra.
Qed.

Lemma stripped_fraction_pos : 0 < stripped_fraction self spec temp xi i.
Proof.
  unfold stripped_fraction. apply Rdiv_lt_0_compat; [|apply s_pos].
  rewrite emul_valid by lia. apply exp_pos.
Qed.

Lemma stage_total_stripped :
  stage_total num i + stripped_fraction self spec temp xi i = 1.
Proof.
  rewrite stage_total_closed. unfold stripped_fraction.
  pose proof s_pos. rewrite s_split at 1 2. rewrite s_split in H.
  field. lra.
Qed.

End balance.

(** ** A rearrangement inequality for weighted means *)

Lemma pow_lt_strict (q1 q2 : R) m :
  0 < q1 < q2 → (1 ≤ m)%nat → q1 ^ m < q2 ^ m.
Proof.
  intros Hq Hm. induction m as [|m IH]; [lia|].
  destruct m as [|m]; [simpl; lra|].
  assert (q1 ^ S m < q2 ^ S m) by (apply IH; lia).
  assert (0 < q1 ^ S m) by (apply pow_lt; lra).
  change (q1 * q1 ^ S m < q2 * q2 ^ S m). nra.
Qed.

Section rearrangement.
Context (W : nat → R) (q1 q2 : R) (n : nat).
Hypothesis HW : ∀ j, (j ≤ n)%nat → 0 < W j.
Hypothesis Hq : 0 < q1 < q2.
Hypothesis Hn : (1 ≤ n)%nat.

Local Abbreviation a := (λ j : nat, W j * q1 ^ j).
Local Abbreviation b := (λ j : nat, W j * q2 ^ j).
Local Abbreviation h :=
  (λ j k : nat, (INR j - INR k) * (b j * a k - a j * b k)).

Lemma cross_term_order j k : (k < j)%nat → q1 ^ j * q2 ^ k < q2 ^ j * q1 ^ k.
Proof.
  intros Hkj. replace j with (k + (j - k))%nat by lia.
  rewrite !pow_add.
  assert (q1 ^ (j - k) < q2 ^ (j - k)) by (apply pow_lt_strict; [done|lia]).
  assert (0 < q1 ^ k) by (apply pow_lt; lra).
  assert (0 < q2 ^ k) by (apply pow_lt; lra).
  assert (0 < q1 ^ k * q2 ^ k) by nra. nra.
Qed.

Lemma h_pos j k : (j ≤ n)%nat → (k ≤ n)%nat → j ≠ k → 0 < h j k.
Proof.
  intros Hj Hk Hjk. pose proof (HW j Hj). pose proof (HW k Hk).
  assert (0 < W j * W k) by nra.
  destruct (decide (k < j)%nat) as [Hlt|Hge].
  - pose proof (cross_term_order j k Hlt).
    assert (INR k < INR j) by (apply lt_INR; lia).
    replace (h j k) with
      ((INR j - INR k) * ((W j * W k) * (q2 ^ j * q1 ^ k - q1 ^ j * q2 ^ k)))
      by ring.
    apply Rmult_lt_0_compat; [lra|]. apply Rmult_lt_0_compat; [done|lra].
  - assert (Hlt : (j < k)%nat) by lia.
    pose proof (cross_term_order k j Hlt).
    assert (INR j < INR k) by (apply lt_INR; lia).
    replace (h j k) with
      ((INR k - INR j) * ((W j * W k) * (q2 ^ k * q1 ^ j - q1 ^ k * q2 ^ j)))
      by ring.
    apply Rmult_lt_0_compat; [lra|]. apply Rmult_lt_0_compat; [done|lra].
Qed.

Lemma h_nonneg j k : (j ≤ n)%nat → (k ≤ n)%nat → 0 <= h j k.
Proof.
  intros Hj Hk. destruct (decide (j = k)) as [->|Hne].
  - right. ring.
  - left. by apply h_pos.
Qed.

Lemma h_inner m j :
  np.sum m (h j) =
  INR j * b j * np.sum m a - INR j * a j * np.sum m b
  - b j * np.sum m (λ k, INR k * a k) + a j * np.sum m (λ k, INR k * b k).
Proof. induction m as [|m IH]; simpl; [ring|]. rewrite IH. ring. Qed.

Lemma h_outer m (c1 c2 c3 c4 : R) :
  np.sum m (λ j, INR j * b j * c1 - INR j * a j * c2 - b j * c3 + a j * c4) =
  np.sum m (λ j, INR j * b j) * c1 - np.sum m (λ j, INR j * a j) * c2
  - np.sum m b * c3 + np.sum m a * c4.
Proof. induction m as [|m IH]; simpl; [ring|]. rewrite IH. ring. Qed.

Lemma weighted_mean_increasing :
  np.sum (S n) (λ j, INR j * a j) * np.sum (S n) b
  < np.sum (S n) (λ j, INR j * b j) * np.sum (S n) a.
Proof.
  assert (H : 0 < np.sum (S n) (λ j, np.sum (S n) (h j))).
  { apply (sum_pos _ _ 1%nat); [|lia|].
    - intros j Hj. apply sum_nonneg. intros k Hk. apply h_nonneg; lia.
    - apply (sum_pos _ _ 0%nat); [|lia|].
      + intros k Hk. apply h_nonneg; lia.
      + apply h_pos; lia. }
  rewrite (sum_ext _ _ _ (λ j _, h_inner (S n) j)), h_outer in H. lra.
Qed.

End rearrangement.

(** ** The populations as a normalised power series in [xi] *)

Lemma exp_affine a x j : exp (a + INR j * x) = exp a * exp x ^ j.
Proof.
  induction j as [|j IH].
  - simpl. rewrite Rmult_0_l, Rplus_0_r. lra.
  - rewrite S_INR.
    replace (a + (INR j + 1) * x) with ((a + INR j * x) + x) by ring.
    rewrite exp_plus, IH. simpl. ring.
Qed.

Lemma normalised_mean (N A J uZ z : R) :
  0 < A + uZ → N * (A + uZ) = 1 →
  N * J + z * (N * uZ) = (J + z * uZ) / (A + uZ).
Proof.
  intros Hpos Hn. replace N with (/ (A + uZ)); [field; lra|].
  apply Rmult_eq_reg_r with (A + uZ); [|lra]. rewrite Hn. field. lra.
Qed.

Lemma ratio_lt_cross (J1 A1 J2 A2 : R) :
  0 < A1 → 0 < A2 → J1 * A2 < J2 * A1 → J1 / A1 < J2 / A2.
Proof.
  intros H1 H2 H. apply Rmult_lt_reg_r with (A1 * A2); [nra|].
  replace (J1 / A1 * (A1 * A2)) with (J1 * A2) by (field; lra).
  replace (J2 / A2 * (A1 * A2)) with (J2 * A1) by (field; lra).
  done.
Qed.

Section series.
Context (self : Absori) (spec : nat → R) (temp xi : R) (i : nat).
Hypothesis HZ : (1 ≤ _atomicnumber self i ≤ n_stage)%nat.

Local Abbreviation Zi := (_atomicnumber self i).
Local Abbreviation num := (_calc_num self spec temp xi).
Local Abbreviation W := (λ j : nat, exp (np.sum j (ratio self spec temp i))).
Local Abbreviation q := (exp (xil xi)).
Local Abbreviation u := (λ j : nat, W j * q ^ j).

Lemma num_series j : (j < Zi)%nat → num j i = num 0%nat i * u j.
Proof.
  intros Hj. unfold _calc_num. rewrite !mask_valid_true by (done || lia).
  rewrite num_log_unfold, exp_plus, exp_affine. done.
Qed.

Lemma stripped_series :
  stripped_fraction self spec temp xi i = num 0%nat i * u Zi.
Proof.
  unfold stripped_fraction. rewrite num_first, emul_valid by (done || lia).
  replace (S (Zi - 1)) with Zi by lia.
  unfold Rminus. rewrite exp_plus, exp_affine. unfold Rdiv. ring.
Qed.

Lemma series_normalised : num 0%nat i * np.sum (S Zi) u = 1.
Proof.
  rewrite <- (stage_total_stripped self spec temp xi i HZ).
  unfold stage_total.
  rewrite (sum_zero_tail Zi n_stage) by (try lia; intros; apply num_invalid; lia).
  rewrite stripped_series.
  rewrite (sum_ext Zi _ (λ j, num 0%nat i * u j)) by (intros; by apply num_series).
  rewrite sum_scal_l. simpl. ring.
Qed.

Lemma series_pos : 0 < np.sum (S Zi) u.
Proof.
  apply (sum_pos _ _ 0%nat); [|lia|].
  - intros j _. left. apply Rmult_lt_0_compat; [apply exp_pos|].
    apply pow_lt, exp_pos.
  - apply Rmult_lt_0_compat; [apply exp_pos|]. apply pow_lt, exp_pos.
Qed.

Lemma mean_series :
  mean_stage num i + INR Zi * stripped_fraction self spec temp xi i =
  np.sum (S Zi) (λ j, INR j * u j) / np.sum (S Zi) u.
Proof.
  pose proof series_pos as Hpos. pose proof series_normalised as Hn.
  unfold mean_stage.
  rewrite (sum_zero_tail Zi n_stage) by
    (try lia; intros; rewrite num_invalid by lia; ring).
  rewrite stripped_series.
  rewrite (sum_ext Zi _ (λ j, num 0%nat i * (INR j * u j))) by
    (intros; rewrite num_series by done; ring).
  rewrite sum_scal_l. cbn [np.sum] in *.
  by apply normalised_mean.
Qed.

End series.

Lemma mean_with_stripped_increasing self spec temp xi1 xi2 i :
  (1 ≤ _atomicnumber self i ≤ n_stage)%nat →
  0 < xi1 < xi2 →
  mean_stage (_calc_num self spec temp xi1) i
    + INR (_atomicnumber self i) * stripped_fraction self spec temp xi1 i
  < mean_stage (_calc_num self spec temp xi2) i
    + INR (_atomicnumber self i) * stripped_fraction self spec temp xi2 i.
Proof.
  intros HZ Hxi. rewrite !mean_series by done.
  assert (Hq : 0 < exp (xil xi1) < exp (xil xi2)).
  { unfold xil. rewrite !decide_False by lra. rewrite !exp_ln by lra. done. }
  pose proof (series_pos self spec temp xi1 i HZ) as H1.
  pose proof (series_pos self spec temp xi2 i HZ) as H2.
  pose proof (weighted_mean_increasing
    (λ j, exp (np.sum j (ratio self spec temp i)))
    (exp (xil xi1)) (exp (xil xi2)) (_atomicnumber self i)
    (λ j _, exp_pos _) Hq (proj1 HZ)) as Hmain.
  by apply ratio_lt_cross.
Qed.

(** ** Locating a sample in the grid *)

Lemma searchsorted_le (xs : list R) v : (np.searchsorted xs v ≤ length xs)%nat.
Proof.
  induction xs as [|x xs IH]; simpl; [lia|]. destruct (decide (x < v)); lia.
Qed.

Lemma searchsorted_below (xs : list R) v m :
  (m < np.searchsorted xs v)%nat → nth m xs 0 < v.
Proof.
  revert m. induction xs as [|x xs IH]; intros m; simpl; [lia|].
  destruct (decide (x < v)); [|lia].
  destruct m as [|m]; [done|]. intros H. apply IH. lia.
Qed.

Lemma searchsorted_at (xs : list R) v :
  (np.searchsorted xs v < length xs)%nat →
  v <= nth (np.searchsorted xs v) xs 0.
Proof.
  induction xs as [|x xs IH]; simpl; [lia|].
  destruct (decide (x < v)); [|lra]. intros H. apply IH. lia.
Qed.

Section grid.
Context (b : list R).
Hypothesis Hlen : (2 ≤ length b)%nat.
Hypothesis Hinc : ∀ k, (S k < length b)%nat → nth k b 0 < nth (S k) b 0.

Lemma grid_lt k m : (k < m < length b)%nat → nth k b 0 < nth m b 0.
Proof.
  intros [Hkm Hm]. induction m as [|m IH]; [lia|].
  destruct (decide (k = m)) as [->|]; [by apply Hinc|].
  transitivity (nth m b 0); [apply IH; lia|by apply Hinc].
Qed.

Lemma grid_le k m : (k ≤ m < length b)%nat → nth k b 0 <= nth m b 0.
Proof.
  intros [Hkm Hm]. destruct (decide (k = m)) as [->|]; [lra|].
  left. apply grid_lt. lia.
Qed.

(** The interval [lo, hi] that the linear interpolation uses brackets
    every in-range sample. *)
Lemma bracket v :
  nth 0 b 0 <= v <= nth (length b - 1) b 0 →
  let hi := np.clip 1 (length b - 1) (np.searchsorted b v) in
  (1 ≤ hi < length b)%nat ∧
  nth (hi - 1) b 0 <= v <= nth hi b 0 ∧
  nth (hi - 1) b 0 < nth hi b 0.
Proof.
  intros [Hv0 Hv1] hi.
  pose proof (searchsorted_le b v) as Hk.
  pose proof (searchsorted_below b v) as Hbelow.
  pose proof (searchsorted_at b v) as Hat.
  unfold hi, np.clip. set (k := np.searchsorted b v) in *.
  destruct (decide (k = 0)%nat) as [Hk0|Hk0].
  - rewrite Hk0 in *. replace (Nat.min (Nat.max 0 1) (length b - 1)) with 1%nat by lia.
    simpl. assert (v <= nth 0 b 0) by (apply Hat; lia).
    assert (nth 0 b 0 < nth 1 b 0) by (apply Hinc; lia).
    split; [lia|]. split; lra.
  - destruct (decide (k = length b)) as [Hkn|Hkn].
    + assert (nth (length b - 1) b 0 < v) by (apply Hbelow; lia). lra.
    + replace (Nat.min (Nat.max k 1) (length b - 1)) with k by lia.
      assert (nth (k - 1) b 0 < v) by (apply Hbelow; lia).
      assert (v <= nth k b 0) by (apply Hat; lia).
      split; [lia|]. split; lra.
Qed.

Lemma searchsorted_first : np.searchsorted b (nth 0 b 0) = 0%nat.
Proof.
  destruct b as [|x xs]; [simpl in Hlen; lia|]. simpl.
  rewrite decide_False by lra. done.
Qed.

Lemma searchsorted_last :
  np.searchsorted b (nth (length b - 1) b 0) = (length b - 1)%nat.
Proof.
  set (v := nth (length b - 1) b 0).
  pose proof (searchsorted_le b v) as Hk.
  pose proof (searchsorted_below b v) as Hbelow.
  pose proof (searchsorted_at b v) as Hat.
  set (k := np.searchsorted b v) in *.
  destruct (decide (k = length b)) as [Hkn|Hkn].
  { assert (nth (length b - 1) b 0 < v) by (apply Hbelow; lia).
    unfold v in *. lra. }
  destruct (decide (k < length b - 1)%nat) as [Hlt|]; [|lia].
  assert (v <= nth k b 0) by (apply Hat; lia).
  assert (nth k b 0 < v) by (apply grid_lt; lia). lra.
Qed.

End grid.

(** ** [_interpolate_sigma] row by row *)

Section interpolate.
Context (self : Absori).
Local Abbreviation base := (_base_energy self).
Hypothesis Hlen : length base = n_bin.
Hypothesis Hinc : ∀ k, (S k < n_bin)%nat → nth k base 0 < nth (S k) base 0.

Local Abbreviation b_first := (nth 0 base 0).
Local Abbreviation b_last := (nth 720 base 0).

Lemma interpolate_sigma_run (ekev : list R) :
  _interpolate_sigma self ekev =
  Ok ((λ v, sigma_row self b_first b_last (1000 * v)) <$> ekev).
Proof.
  unfold _interpolate_sigma.
  rewrite (getitem_neg base (-1)) by (rewrite Hlen; unfold n_bin; lia).
  cbn [mbind res_bind].
  rewrite (getitem_nonneg base 0) by (rewrite Hlen; unfold n_bin; lia).
  cbn [mbind res_bind]. rewrite Hlen.
  change (n_bin - Z.to_nat (- -1))%nat with 720%nat.
  change (Z.to_nat 0) with 0%nat.
  by rewrite <- list_fmap_compose.
Qed.

Lemma first_le_last : b_first <= b_last.
Proof.
  apply grid_le; rewrite ?Hlen; try done; unfold n_bin; lia.
Qed.

Lemma sigma_row_in_range e j i :
  b_first <= e <= b_last →
  sigma_row self b_first b_last e j i = _interp_sigma self e j i.
Proof.
  intros [H0 H1]. unfold sigma_row.
  rewrite !bool_decide_eq_false_2 by lra. done.
Qed.

Lemma sigma_row_above e j i :
  e > b_last →
  sigma_row self b_first b_last e j i =
  _sigma self 720 j i * Rpower (e / b_last) (-3.0).
Proof.
  intros H1. pose proof first_le_last. unfold sigma_row.
  rewrite (bool_decide_eq_true_2 (e > b_last)) by done.
  rewrite (bool_decide_eq_false_2 (e < b_first)) by lra. done.
Qed.

Lemma sigma_row_below e j i :
  e < b_first → sigma_row self b_first b_last e j i = _sigma self 0 j i.
Proof.
  intros H0. unfold sigma_row.
  rewrite (bool_decide_eq_true_2 (e < b_first)) by done. done.
Qed.

(** The in-range value is the linear interpolant on a bracketing pair of
    adjacent grid points. *)
Lemma interp_sigma_linear e :
  b_first <= e <= b_last →
  ∃ k, (S k < n_bin)%nat ∧
    nth k base 0 < nth (S k) base 0 ∧
    nth k base 0 <= e <= nth (S k) base 0 ∧
    ∀ j i, _interp_sigma self e j i =
      _sigma self k j i
      + (_sigma self (S k) j i - _sigma self k j i)
        * ((e - nth k base 0) / (nth (S k) base 0 - nth k base 0)).
Proof.
  intros He.
  destruct (bracket base) with (v := e) as (Hhi & Hbr & Hlt).
  { rewrite Hlen. unfold n_bin. lia. }
  { by rewrite Hlen. }
  { by rewrite Hlen. }
  set (hi := np.clip 1 (length base - 1) (np.searchsorted base e)) in *.
  exists (hi - 1)%nat. replace (S (hi - 1)) with hi by lia.
  split; [rewrite <- Hlen; lia|]. split; [done|]. split; [done|].
  intros j i. unfold _interp_sigma. fold hi. field. lra.
Qed.

Lemma interp_sigma_first j i :
  _interp_sigma self b_first j i = _sigma self 0 j i.
Proof.
  unfold _interp_sigma.
  rewrite searchsorted_first by
    (rewrite Hlen; first [done | unfold n_bin; lia]).
  rewrite Hlen. change (np.clip 1 (n_bin - 1) 0) with 1%nat.
  change (1 - 1)%nat with 0%nat. unfold Rdiv. ring.
Qed.

Lemma interp_sigma_last j i :
  _interp_sigma self b_last j i = _sigma self 720 j i.
Proof.
  unfold _interp_sigma.
  pose proof (searchsorted_last base) as Hs. rewrite Hlen in Hs.
  change (n_bin - 1)%nat with 720%nat in Hs.
  rewrite Hs by first [done | unfold n_bin; lia].
  rewrite Hlen. change (np.clip 1 (n_bin - 1) 720) with 720%nat.
  change (720 - 1)%nat with 719%nat.
  assert (nth 719 base 0 < nth 720 base 0) by (apply Hinc; unfold n_bin; lia).
  field. lra.
Qed.

End interpolate.

(** ** The abundance copy *)

Lemma imul_slice_length (a : list R) start stop c :
  length (np.imul_slice a start stop c) = length a.
Proof.
  unfold np.imul_slice.
  rewrite !length_app, length_fmap, !length_take, !length_drop. lia.
Qed.

Lemma adjusted_length a m fe : length (adjusted a m fe) = length a.
Proof. unfold adjusted. by rewrite length_alter, imul_slice_length. Qed.

Lemma adjusted_abundance_run self m fe (σ : store) a :
  σ !! _abundance self = Some a → (1 ≤ length a)%nat →
  adjusted_abundance self m fe σ =
  Ok (fresh (dom σ), <[fresh (dom σ) := adjusted a m fe]> σ).
Proof.
  intros Ha Hlen.
  unfold adjusted_abundance, np_copy, imul_slice_at, imul_item_at, read,
    alloc, store_set, lift, np.imul_item.
  unfold mbind, M_bind, mret, M_ret, res_bind. cbv beta.
  rewrite Ha. cbv beta iota. rewrite lookup_insert_eq.
  cbv beta iota. rewrite lookup_insert_eq.
  rewrite index_neg by (rewrite imul_slice_length; lia).
  rewrite !insert_insert_eq, imul_slice_length. done.
Qed.

Lemma fresh_not_stored (σ : store) r a : σ !! r = Some a → fresh (dom σ) ≠ r.
Proof.
  intros Hr Heq. apply (is_fresh (dom σ)). rewrite Heq.
  apply elem_of_dom. eauto.
Qed.

(** For the ten elements H He C N O Ne Mg Si S Fe. *)
Lemma adjusted_entries a m fe :
  length a = n_elem →
  (∀ i, (i < 2)%nat → nth i (adjusted a m fe) 0 = nth i a 0) ∧
  (∀ i, (2 ≤ i ≤ 8)%nat →
     nth i (adjusted a m fe) 0 = nth i a 0 * Rpower 10 m) ∧
  nth 9 (adjusted a m fe) 0 = nth 9 a 0 * Rpower 10 fe.
Proof.
  intros Hlen. unfold adjusted.
  generalize (Rpower 10 m) (Rpower 10 fe). intros c f.
  do 10 (destruct a as [|? a]; [discriminate Hlen|]).
  destruct a; [|discriminate Hlen].
  split; [|split].
  - intros i Hi. by do 2 (destruct i as [|i]; [reflexivity|]); lia.
  - intros i Hi. do 2 (destruct i as [|i]; [lia|]).
    by do 7 (destruct i as [|i]; [reflexivity|]); lia.
  - reflexivity.
Qed.

Lemma adjusted_nonneg a m fe i :
  Forall (λ v, 0 <= v) a → 0 <= nth i (adjusted a m fe) 0.
Proof.
  intros Ha.
  assert (Hc : ∀ t, 0 < Rpower 10 t) by (intros; apply exp_pos).
  assert (Hall : Forall (λ v, 0 <= v) (adjusted a m fe)).
  { unfold adjusted. apply Forall_alter.
    - unfold np.imul_slice. rewrite !Forall_app. split_and!.
      + by apply Forall_take.
      + apply Forall_fmap, Forall_take, Forall_drop.
        eapply Forall_impl; [exact Ha|]. intros v Hv. simpl.
        pose proof (Hc m). nra.
      + by apply Forall_drop.
    - intros v _ Hv. pose proof (Hc fe). nra. }
  rewrite nth_lookup.
  destruct (adjusted a m fe !! i) as [v|] eqn:Hv; simpl; [|lra].
  by eapply (Forall_lookup_1 _ _ _ _ Hall).
Qed.

(** ** Running [_calc_opacity] and [evaluate] *)

Section run.
Context (self : Absori) (σ : store) (a : list R).
Hypothesis Hlen : length (_base_energy self) = n_bin.
Hypothesis Hab : σ !! _abundance self = Some a.
Hypothesis Halen : length a = n_elem.

Local Abbreviation b_first := (nth 0 (_base_energy self) 0).
Local Abbreviation b_last := (nth 720 (_base_energy self) 0).

Lemma calc_opacity_run e temp xi gamma m fe :
  _calc_opacity self e temp xi gamma m fe σ =
  Ok ((λ v, sum_stage_elem (λ j i,
              _calc_num self (_calc_ion_spec self gamma) temp xi j i
              * nth i (adjusted a m fe) 0
              * sigma_row self b_first b_last (1000 * v) j i) * 6.6e-5) <$> e,
      <[fresh (dom σ) := adjusted a m fe]> σ).
Proof.
  unfold _calc_opacity.
  unfold mbind at 1. unfold M_bind.
  rewrite (adjusted_abundance_run self m fe σ a) by (done || rewrite Halen; unfold n_elem; lia).
  unfold mbind at 1. unfold M_bind, read. rewrite lookup_insert_eq.
  unfold mbind at 1. unfold M_bind, lift, weight.
  rewrite decide_True by (by rewrite adjusted_length).
  unfold mbind at 1. unfold M_bind.
  rewrite interpolate_sigma_run by done.
  unfold mret, M_ret. by rewrite <- list_fmap_compose.
Qed.

Lemma evaluate_run x NH redshift temp xi gamma m fe :
  evaluate self x NH redshift temp xi gamma m fe σ =
  Ok ((λ v, exp (- NH * (sum_stage_elem (λ j i,
              _calc_num self (_calc_ion_spec self gamma) temp xi j i
              * nth i (adjusted a m fe) 0
              * sigma_row self b_first b_last
                  (1000 * (v * (1 + redshift))) j i) * 6.6e-5))) <$> x,
      <[fresh (dom σ) := adjusted a m fe]> σ).
Proof.
  unfold evaluate. unfold mbind, M_bind. rewrite calc_opacity_run.
  unfold mret, M_ret. by rewrite <- !list_fmap_compose.
Qed.

End run.

(** ** Signs *)

Lemma sum_stage_elem_nonneg (f : nat → nat → R) :
  (∀ j i, 0 <= f j i) → 0 <= sum_stage_elem f.
Proof.
  intros Hf. unfold sum_stage_elem.
  apply sum_nonneg. intros j _. apply sum_nonneg. intros i _. apply Hf.
Qed.

Section signs.
Context (self : Absori).
Hypothesis Hlen : length (_base_energy self) = n_bin.
Hypothesis Hinc :
  ∀ k, (S k < n_bin)%nat →
    nth k (_base_energy self) 0 < nth (S k) (_base_energy self) 0.
Hypothesis Hsigma : ∀ k j i, 0 <= _sigma self k j i.

Lemma sigma_row_nonneg e j i :
  0 <= sigma_row self (nth 0 (_base_energy self) 0)
         (nth 720 (_base_energy self) 0) e j i.
Proof.
  destruct (decide (e < nth 0 (_base_energy self) 0)) as [Hlo|Hlo].
  { rewrite sigma_row_below by done. apply Hsigma. }
  destruct (decide (e > nth 720 (_base_energy self) 0)) as [Hhi|Hhi].
  { rewrite sigma_row_above by done.
    apply Rmult_le_pos; [apply Hsigma|]. left. apply exp_pos. }
  rewrite sigma_row_in_range by lra.
  destruct (interp_sigma_linear self Hlen Hinc e) as (k & Hk & Hlt & Hbr & ->);
    [lra|].
  pose proof (Hsigma k j i). pose proof (Hsigma (S k) j i).
  set (t := (e - nth k (_base_energy self) 0)
            / (nth (S k) (_base_energy self) 0 - nth k (_base_energy self) 0)).
  assert (0 <= t <= 1).
  { unfold t. split.
    - apply Rmult_le_pos; [lra|]. left. apply Rinv_0_lt_compat. lra.
    - apply Rmult_le_reg_r
        with (nth (S k) (_base_energy self) 0 - nth k (_base_energy self) 0);
        [lra|].
      unfold Rdiv. rewrite Rmult_assoc, Rinv_l by lra. lra. }
  nra.
Qed.

End signs.

Lemma exp_neg_unit t : 0 <= t → 0 < exp (- t) <= 1.
Proof.
  intros Ht. split; [apply exp_pos|].
  destruct Ht as [Ht| <-]; [|rewrite Ropp_0, exp_0; lra].
  left. rewrite <- exp_0. apply exp_increasing. lra.
Qed.

(** ** The shell count of [Integrate_Absori.evaluate] *)

Lemma int_small r : -1 < r < 1 → np.int r = 0%Z.
Proof.
  intros Hr. unfold np.int. destruct (decide (0 <= r)).
  - symmetry. apply Int_part_spec. simpl. lra.
  - replace (Int_part (- r)) with 0%Z; [done|].
    apply Int_part_spec. simpl. lra.
Qed.

Lemma int_ge_1 r : 1 <= r → (1 ≤ np.int r)%Z.
Proof.
  intros Hr. unfold np.int. rewrite decide_True by lra.
  destruct (base_Int_part r) as [_ Hup].
  assert (H : 0 < IZR (Int_part r)) by lra.
  apply lt_IZR in H. lia.
Qed.

Lemma no_shell redshift : -0.02 < redshift < 0.02 → np.int (redshift / 0.02) = 0%Z.
Proof. intros H. apply int_small. lra. Qed.

Lemma integrate_evaluate_no_shell self x n0 delta redshift temp xi gamma m fe
    (σ : store) :
  -0.02 < redshift < 0.02 →
  Integrate_Absori.evaluate self x n0 delta redshift temp xi gamma m fe σ
  = Raise ZeroDivisionError.
Proof.
  intros H. unfold Integrate_Absori.evaluate.
  rewrite no_shell by done. reflexivity.
Qed.

(** ** An empty medium *)

Lemma add_zero_column (taus xs : list R) :
  length xs = length taus →
  zip_with Rplus taus ((λ v, v * 0) <$> xs) = taus.
Proof.
  revert xs. induction taus as [|t taus IH]; intros [|v xs] Hl;
    simpl in *; try done.
  rewrite IH by lia. f_equal. lra.
Qed.

Lemma shells_empty_medium self x num delta zsam n zz taus :
  length (_base_energy self) = n_bin →
  length taus = length x →
  Integrate_Absori.shells self x num 0 delta zsam n zz taus = Ok taus.
Proof.
  intros Hlen Hl. revert zz. induction n as [|n IH]; intros zz; [done|].
  cbn [Integrate_Absori.shells].
  rewrite interpolate_sigma_run by done. cbn [mbind res_bind].
  replace (((zz + 1.0) ^ 2
            / sqrt (Integrate_Absori._omegam * (zz + 1.0) ^ 3
                    + Integrate_Absori._omegal))
           * (zsam * Integrate_Absori._c * (0 * Rpower (zz + 1.0) delta)
              * Integrate_Absori._cmpermpc / Integrate_Absori._h0))
    with 0 by (unfold Rdiv; ring).
  rewrite add_zero_column by (by rewrite !length_fmap).
  apply IH.
Qed.

Lemma integrate_evaluate_empty_medium self x delta redshift temp xi gamma m fe
    (σ : store) a :
  length (_base_energy self) = n_bin →
  σ !! _abundance self = Some a → length a = n_elem →
  0.02 <= redshift →
  Integrate_Absori.evaluate self x 0 delta redshift temp xi gamma m fe σ
  = Ok (replicate (length x) 1, <[fresh (dom σ) := adjusted a m fe]> σ).
Proof.
  intros Hlen Hab Halen Hz. unfold Integrate_Absori.evaluate.
  assert (Hnz : (1 ≤ np.int (redshift / 0.02))%Z) by (apply int_ge_1; lra).
  unfold np.truediv. rewrite decide_False by lia.
  unfold mbind at 1. unfold M_bind, lift at 1.
  unfold mbind at 1. unfold M_bind.
  rewrite (adjusted_abundance_run self m fe σ a) by
    (done || rewrite Halen; unfold n_elem; lia).
  unfold mbind at 1. unfold M_bind, read. rewrite lookup_insert_eq.
  unfold mbind at 1. unfold M_bind, lift at 1, weight.
  rewrite decide_True by (by rewrite adjusted_length).
  unfold mbind at 1. unfold M_bind, lift.
  rewrite shells_empty_medium by
    (done || (unfold np.zeros; by rewrite length_replicate)).
  unfold mret, M_ret. do 2 f_equal. unfold np.zeros.
  rewrite fmap_replicate. f_equal. rewrite Ropp_0. apply exp_0.
Qed.

(** ** Facts about the small instance *)

Ltac toy_nat :=
  cbv [_atomicnumber toy toy_atomicnumber n_stage n_elem n_bin nth]; lia.

Lemma toy_energy_length : length toy_energy = n_bin.
Proof. unfold toy_energy. by rewrite length_fmap, length_seq. Qed.

Lemma toy_energy_nth k : (k < n_bin)%nat → nth k toy_energy 0 = INR (S k).
Proof.
  intros Hk. unfold toy_energy.
  rewrite nth_lookup, list_lookup_fmap, lookup_seq_lt by done. done.
Qed.

Lemma toy_energy_increasing k :
  (S k < n_bin)%nat → nth k toy_energy 0 < nth (S k) toy_energy 0.
Proof.
  intros Hk. rewrite !toy_energy_nth by lia. apply lt_INR. lia.
Qed.

Lemma toy_energy_positive : 0 < nth 0 toy_energy 0.
Proof. rewrite toy_energy_nth by (unfold n_bin; lia). simpl. lra. Qed.

Lemma toy_sigma_nonneg k j i : 0 <= _sigma toy k j i.
Proof. simpl. destruct (decide _); lra. Qed.

Lemma toy_store_abundance :
  toy_store !! _abundance toy = Some (replicate n_elem 1).
Proof. apply lookup_singleton_eq. Qed.

Lemma toy_abundance_nonneg : Forall (λ v, 0 <= v) (replicate n_elem 1).
Proof. apply Forall_replicate. lra. Qed.

(** Helium in the small instance at [temp = 10000]. *)

Lemma toy_t4 : t4 10000 = 1.
Proof. unfold t4. lra. Qed.

Lemma toy_intgral i j :
  (j < toy_atomicnumber i)%nat → intgral toy toy_spec i j = 1.
Proof.
  intros Hj. unfold intgral, toy_spec. simpl _sigma.
  rewrite decide_True by done. rewrite sum_const.
  unfold n_bin. rewrite INR_IZR_INZ. change (Z.of_nat 721) with 721%Z. lra.
Qed.

Lemma toy_helium_ratio_0 : ratio toy toy_spec 10000 1 0 = 0.
Proof.
  assert (Ha : arec toy 10000 1 0 = 3.2749e-6).
  { unfold arec. rewrite mask_2_spec by toy_nat.
    rewrite bool_decide_eq_false_2 by toy_nat.
    unfold arec_general. rewrite toy_t4. simpl _ion.
    unfold Rpower. rewrite ln_1, Rmult_0_r, exp_0. lra. }
  unfold ratio. rewrite Ha, decide_False by lra.
  rewrite toy_intgral by toy_nat.
  replace (3.2749e-6 * 1 / 3.2749e-6) with 1 by lra. apply ln_1.
Qed.

Lemma ln_bounds v : 1 < v → 0 < ln v < v - 1.
Proof.
  intros Hv. split.
  - rewrite <- ln_1. apply ln_increasing; lra.
  - assert (Hne : ln v ≠ 0).
    { assert (0 < ln v) by (rewrite <- ln_1; apply ln_increasing; lra). lra. }
    pose proof (exp_ineq1 (ln v) Hne) as H. rewrite exp_ln in H by lra. lra.
Qed.

Lemma toy_helium_arec2 : 0 < arec2 toy 10000 1 < 0.3.
Proof.
  unfold arec2, tfact, y, z2. rewrite toy_t4, sqrt_1.
  simpl _atomicnumber. change (toy_atomicnumber 1 ^ 2)%nat with 4%nat.
  rewrite INR_IZR_INZ. change (Z.of_nat 4) with 4%Z.
  replace (15.8 * 4 / 1) with 63.2 by lra.
  pose proof (ln_bounds 63.2 ltac:(lra)) as [Hl Hu].
  assert (0 < 1 / (6 * 63.2) < 0.003) by (split; lra).
  split; nra.
Qed.

Lemma toy_helium_weight_2 :
  1e-5 < exp (np.sum 2 (ratio toy toy_spec 10000 1)).
Proof.
  cbn [np.sum]. rewrite toy_helium_ratio_0.
  pose proof toy_helium_arec2 as [Hpos Hlt].
  assert (Ha : arec toy 10000 1 1 = arec2 toy 10000 1).
  { unfold arec. rewrite mask_2_spec by toy_nat.
    by rewrite bool_decide_eq_true_2 by toy_nat. }
  unfold ratio. rewrite Ha, decide_False by lra.
  rewrite toy_intgral by toy_nat.
  revert Hpos Hlt. generalize (arec2 toy 10000 1). intros a Hpos Hlt.
  rewrite !Rplus_0_l, exp_ln by (apply Rdiv_lt_0_compat; lra).
  apply Rmult_lt_reg_r with a; [done|].
  replace (3.2749e-6 * 1 / a * a) with 3.2749e-6 by (field; lra). lra.
Qed.

Lemma toy_helium_mean xi :
  0 < xi →
  mean_stage (_calc_num toy toy_spec 10000 xi) 1 =
  xi / (1 + xi + exp (np.sum 2 (ratio toy toy_spec 10000 1)) * xi ^ 2).
Proof.
  intros Hxi.
  assert (HZ : (1 ≤ _atomicnumber toy 1 ≤ n_stage)%nat)
    by toy_nat.
  pose proof (series_normalised toy toy_spec 10000 xi 1 HZ) as Hn.
  pose proof (num_series toy toy_spec 10000 xi 1 HZ 1%nat) as H1.
  unfold mean_stage.
  rewrite (sum_zero_tail 2 n_stage) by
    (unfold n_stage; try lia; intros; rewrite num_invalid by toy_nat; ring).
  change (_atomicnumber toy 1) with 2%nat in *.
  cbn [np.sum] in *. rewrite toy_helium_ratio_0 in *.
  rewrite H1 by lia. clear H1.
  assert (Hq : exp (xil xi) = xi).
  { unfold xil. rewrite decide_False by lra. by apply exp_ln. }
  rewrite Hq in *. rewrite !Rplus_0_l, exp_0 in *.
  revert Hn.
  generalize (_calc_num toy toy_spec 10000 xi 0 1)
    (exp (ratio toy toy_spec 10000 1 1))
    (exp_pos (ratio toy toy_spec 10000 1 1)).
  intros N w Hw Hn. simpl in *.
  assert (Hd : 0 < 1 + xi + w * (xi * (xi * 1))) by nra.
  apply Rmult_eq_reg_r with (1 + xi + w * (xi * (xi * 1))); [|lra].
  unfold Rdiv. rewrite Rmult_assoc, Rinv_l by lra. nra.
Qed.

(** ** The ionization balance *)

Section balance_more.
Context (self : Absori) (spec : nat → R) (temp : R) (i : nat).
Hypothesis HZ : (1 ≤ _atomicnumber self i ≤ n_stage)%nat.

Local Abbreviation Zi := (_atomicnumber self i).
Local Abbreviation W := (λ j : nat, exp (np.sum j (ratio self spec temp i))).

(** The unnormalised population of stage [j] at ionization parameter
    [xi], in direct (not logarithmic) space. *)
Local Abbreviation u := (λ (xi : R) (j : nat), W j * exp (xil xi) ^ j).

Lemma u_pos xi j : 0 < u xi j.
Proof. apply Rmult_lt_0_compat; [apply exp_pos|]. apply pow_lt, exp_pos. Qed.

Lemma num_first_direct xi :
  _calc_num self spec temp xi 0 i = / np.sum (S Zi) (u xi).
Proof.
  pose proof (series_normalised self spec temp xi i HZ) as Hn.
  pose proof (series_pos self spec temp xi i HZ) as Hpos.
  cbv beta in *.
  apply Rmult_eq_reg_r with (np.sum (S Zi) (u xi)); [|lra].
  rewrite Hn. field. lra.
Qed.

Lemma num_direct xi j :
  (j < Zi)%nat →
  _calc_num self spec temp xi j i = u xi j / np.sum (S Zi) (u xi).
Proof.
  intros Hj. rewrite (num_series self spec temp xi i HZ j Hj).
  rewrite num_first_direct. unfold Rdiv. ring.
Qed.

Lemma sum_gt_term n (f : nat → R) k :
  (∀ j, (j < n)%nat → 0 < f j) → (k < n)%nat → (2 ≤ n)%nat →
  f k < np.sum n f.
Proof.
  intros Hf Hk Hn. induction n as [|n IH]; [lia|].
  cbn [np.sum]. assert (0 < f n) by (apply Hf; lia).
  destruct (decide (k = n)) as [->|Hne].
  - assert (0 < np.sum n f); [|lra].
    apply (sum_pos _ _ 0%nat); [|lia|apply Hf; lia].
    intros j Hj. left. apply Hf. lia.
  - destruct (decide (n = 1)%nat) as [->|].
    + assert (k = 0)%nat as -> by lia. simpl. lra.
    + assert (f k < np.sum n f); [|lra].
      apply IH; [intros; apply Hf|..]; lia.
Qed.

Lemma num_strictly_inside xi j :
  (j < Zi)%nat → 0 < _calc_num self spec temp xi j i < 1.
Proof.
  intros Hj. rewrite num_direct by done.
  pose proof (series_pos self spec temp xi i HZ) as Hpos. cbv beta in Hpos.
  pose proof (u_pos xi j) as Hu.
  assert (Hlt : u xi j < np.sum (S Zi) (u xi)).
  { apply (sum_gt_term (S Zi) (u xi) j); [intros; apply u_pos|lia|lia]. }
  split.
  - by apply Rdiv_lt_0_compat.
  - apply Rmult_lt_reg_r with (np.sum (S Zi) (u xi)); [done|].
    unfold Rdiv. rewrite Rmult_assoc, Rinv_l by lra. lra.
Qed.

Lemma num_step xi j :
  (S j < Zi)%nat →
  _calc_num self spec temp xi (S j) i
  = _calc_num self spec temp xi j i * exp (ratio self spec temp i j + xil xi).
Proof.
  intros Hj. unfold _calc_num. rewrite !mask_valid_true by (done || lia).
  cbn [num_log]. rewrite <- exp_plus. f_equal. ring.
Qed.

End balance_more.

Lemma max_ext n (f g : nat → R) :
  (∀ j, (j ≤ n)%nat → f j = g j) → np.max n f = np.max n g.
Proof.
  induction n as [|n IH]; intros H; cbn [np.max]; [apply H; lia|].
  rewrite IH, (H (S n)) by (intros; try apply H; lia). done.
Qed.

(** [_calc_num] reads [xi] through [xil] only. *)
Lemma calc_num_xil self spec temp xi xi' j i :
  xil xi = xil xi' →
  _calc_num self spec temp xi j i = _calc_num self spec temp xi' j i.
Proof.
  intros Hx.
  assert (Hraw : ∀ k, mul_raw self spec temp xi i k
                      = mul_raw self spec temp xi' i k).
  { intros k. unfold mul_raw. by rewrite Hx. }
  assert (Hmult : mult self spec temp xi i = mult self spec temp xi' i).
  { unfold mult. apply max_ext. intros k _. apply Hraw. }
  assert (Hs : s self spec temp xi i = s self spec temp xi' i).
  { unfold s. rewrite Hmult. f_equal. apply sum_ext. intros k _.
    unfold emul, mul. by rewrite Hraw, Hmult. }
  unfold _calc_num. destruct (_mask_valid self i j); [|done]. f_equal.
  induction j as [|j IH]; cbn [num_log]; [by rewrite Hmult, Hs|].
  by rewrite IH, Hx.
Qed.

Lemma xil_nonpositive xi : xi <= 0 → xil xi = xil (exp (-100)).
Proof.
  intros Hxi. unfold xil. rewrite decide_True by done.
  pose proof (exp_pos (-100)). rewrite decide_False by lra.
  by rewrite ln_exp.
Qed.

Lemma sum_lt n (f g : nat → R) k :
  (∀ j, (j < n)%nat → f j <= g j) → (k < n)%nat → f k < g k →
  np.sum n f < np.sum n g.
Proof.
  intros Hle Hk Hlt.
  assert (0 < np.sum n (λ j, g j - f j)).
  { apply (sum_pos _ _ k); [|done|lra].
    intros j Hj. specialize (Hle j Hj). lra. }
  assert (np.sum n (λ j, g j - f j) = np.sum n g - np.sum n f).
  { clear. induction n as [|n IH]; simpl; [lra|]. rewrite IH. lra. }
  lra.
Qed.

Lemma xil_increasing xi1 xi2 :
  0 < xi1 < xi2 → 0 < exp (xil xi1) < exp (xil xi2).
Proof.
  intros H. unfold xil. rewrite !decide_False by lra.
  rewrite !exp_ln by lra. done.
Qed.

Lemma neutral_decreasing self spec temp xi1 xi2 i :
  (1 ≤ _atomicnumber self i ≤ n_stage)%nat →
  0 < xi1 < xi2 →
  _calc_num self spec temp xi2 0 i < _calc_num self spec temp xi1 0 i.
Proof.
  intros HZ Hxi. rewrite !num_first_direct by done.
  pose proof (xil_increasing xi1 xi2 Hxi) as Hq.
  pose proof (series_pos self spec temp xi1 i HZ) as H1.
  cbv beta in H1.
  apply Rinv_lt_contravar.
  - apply Rmult_lt_0_compat; [done|]. by apply (series_pos self spec temp xi2 i).
  - apply (sum_lt _ _ _ 1%nat); [|lia|].
    + intros j _. apply Rmult_le_compat_l; [left; apply exp_pos|].
      apply pow_incr. lra.
    + apply Rmult_lt_compat_l; [apply exp_pos|]. simpl. lra.
Qed.

(** The ionizing spectrum and [xi] enter through their product. *)
Lemma intgral_scale self spec c i j :
  intgral self (λ k, c * spec k) i j = c * intgral self spec i j.
Proof.
  unfold intgral. rewrite <- sum_scal_l. apply sum_ext. intros k _. ring.
Qed.

Lemma ratio_scale self spec temp c i j :
  0 < c → 0 < arec self temp i j → 0 < intgral self spec i j →
  ratio self (λ k, c * spec k) temp i j = ln c + ratio self spec temp i j.
Proof.
  intros Hc Ha Hi. unfold ratio. rewrite !decide_False by lra.
  rewrite intgral_scale.
  replace (3.2749e-6 * (c * intgral self spec i j) / arec self temp i j)
    with (c * (3.2749e-6 * intgral self spec i j / arec self temp i j))
    by (field; lra).
  apply ln_mult; [done|]. apply Rdiv_lt_0_compat; [nra|done].
Qed.

Lemma spectrum_scale self spec temp xi c i j :
  (1 ≤ _atomicnumber self i ≤ n_stage)%nat →
  (∀ k, (k < _atomicnumber self i)%nat →
     0 < arec self temp i k ∧ 0 < intgral self spec i k) →
  0 < c → 0 < xi →
  _calc_num self (λ k, c * spec k) temp xi j i
  = _calc_num self spec temp (c * xi) j i.
Proof.
  intros HZ Hpos Hc Hxi.
  destruct (decide (j < _atomicnumber self i)%nat) as [Hj|Hj];
    [|by rewrite !num_invalid by lia].
  assert (Hx : xil (c * xi) = ln c + xil xi).
  { unfold xil. rewrite !decide_False by nra. by apply ln_mult. }
  assert (Hsum : ∀ m, (m ≤ _atomicnumber self i)%nat →
            np.sum m (ratio self (λ k, c * spec k) temp i)
            = INR m * ln c + np.sum m (ratio self spec temp i)).
  { intros m Hm. induction m as [|m IH]; [simpl; lra|].
    cbn [np.sum]. rewrite IH by lia.
    destruct (Hpos m) as [Ha Hi]; [lia|].
    rewrite ratio_scale, S_INR by done. ring. }
  assert (Hu : ∀ m, (m ≤ _atomicnumber self i)%nat →
            exp (np.sum m (ratio self (λ k, c * spec k) temp i))
              * exp (xil xi) ^ m
            = exp (np.sum m (ratio self spec temp i)) * exp (xil (c * xi)) ^ m).
  { intros m Hm. rewrite <- !exp_affine, Hsum, Hx by done. f_equal. ring. }
  rewrite !num_direct by done. cbv beta.
  rewrite Hu by lia. f_equal. apply sum_ext. intros m Hm. apply Hu. lia.
Qed.

(** ** The interpolator between and beyond the grid points *)

Lemma searchsorted_grid_point (b : list R) k :
  (2 ≤ length b)%nat →
  (∀ m, (S m < length b)%nat → nth m b 0 < nth (S m) b 0) →
  (k < length b)%nat →
  np.searchsorted b (nth k b 0) = k.
Proof.
  intros Hlen Hinc Hk. set (v := nth k b 0).
  pose proof (searchsorted_le b v) as Hm.
  pose proof (searchsorted_below b v) as Hbelow.
  pose proof (searchsorted_at b v) as Hat.
  set (m := np.searchsorted b v) in *.
  destruct (decide (m < k)%nat) as [Hlt|Hge].
  - assert (v <= nth m b 0) by (apply Hat; lia).
    assert (nth m b 0 < v) by (apply grid_lt; [done|done|lia]). lra.
  - destruct (decide (k < m)%nat) as [Hgt|]; [|lia].
    assert (nth k b 0 < v) by (by apply Hbelow). unfold v in *. lra.
Qed.

Section interpolate_more.
Context (self : Absori).
Local Abbreviation base := (_base_energy self).
Hypothesis Hlen : length base = n_bin.
Hypothesis Hinc : ∀ k, (S k < n_bin)%nat → nth k base 0 < nth (S k) base 0.

Lemma interp_sigma_grid_point k j i :
  (k < n_bin)%nat → _interp_sigma self (nth k base 0) j i = _sigma self k j i.
Proof.
  intros Hk. unfold _interp_sigma.
  rewrite searchsorted_grid_point by
    (rewrite Hlen; first [done | unfold n_bin in *; lia]).
  rewrite Hlen. unfold np.clip, n_bin in *.
  destruct (decide (k = 0)%nat) as [->|Hk0].
  - change (Nat.min (Nat.max 0 1) (721 - 1)) with 1%nat.
    change (1 - 1)%nat with 0%nat. unfold Rdiv. ring.
  - replace (Nat.min (Nat.max k 1) (721 - 1)) with k by lia.
    assert (nth (k - 1) base 0 < nth k base 0).
    { replace k with (S (k - 1)) at 2 by lia. apply Hinc. lia. }
    field. lra.
Qed.

Lemma grid_point_in_range k :
  (k < n_bin)%nat → nth 0 base 0 <= nth k base 0 <= nth 720 base 0.
Proof.
  intros Hk. unfold n_bin in *.
  split; apply grid_le; rewrite ?Hlen; first [done | unfold n_bin; lia].
Qed.

Lemma interp_sigma_between e :
  nth 0 base 0 <= e <= nth 720 base 0 →
  ∃ k, (S k < n_bin)%nat ∧ nth k base 0 <= e <= nth (S k) base 0 ∧
    ∀ j i,
      Rmin (_sigma self k j i) (_sigma self (S k) j i)
      <= _interp_sigma self e j i
      <= Rmax (_sigma self k j i) (_sigma self (S k) j i).
Proof.
  intros He.
  destruct (interp_sigma_linear self Hlen Hinc e He)
    as (k & Hk & Hlt & Hbr & Hv).
  exists k. split; [done|]. split; [done|]. intros j i. rewrite Hv.
  set (t := (e - nth k base 0) / (nth (S k) base 0 - nth k base 0)).
  assert (0 <= t <= 1).
  { unfold t. split.
    - apply Rmult_le_pos; [lra|]. left. apply Rinv_0_lt_compat. lra.
    - apply Rmult_le_reg_r with (nth (S k) base 0 - nth k base 0); [lra|].
      unfold Rdiv. rewrite Rmult_assoc, Rinv_l by lra. lra. }
  unfold Rmin, Rmax. destruct (Rle_dec _ _); split; nra.
Qed.

End interpolate_more.

Lemma tail_factor (r1 r2 : R) :
  1 < r1 < r2 → 0 < Rpower r2 (-3.0) < Rpower r1 (-3.0) ∧ Rpower r1 (-3.0) < 1.
Proof.
  intros [H1 H2]. unfold Rpower.
  assert (0 < ln r1) by (rewrite <- ln_1; apply ln_increasing; lra).
  assert (ln r1 < ln r2) by (apply ln_increasing; lra).
  split_and!.
  - apply exp_pos.
  - apply exp_increasing. nra.
  - apply Rlt_le_trans with (exp 0); [apply exp_increasing; nra|].
    rewrite exp_0. lra.
Qed.

(** ** The column density in [evaluate] *)

Lemma fmap_product {A} (f g h : A → R) (l : list A) :
  (∀ v, h v = f v * g v) →
  h <$> l = zip_with Rmult (f <$> l) (g <$> l).
Proof.
  intros H. induction l as [|v l IH]; [done|].
  rewrite !fmap_cons. cbn [zip_with]. by rewrite H, IH.
Qed.

Lemma Forall2_fmap_same {A} (P : R → R → Prop) (f g : A → R) (l : list A) :
  (∀ v, P (f v) (g v)) → Forall2 P (f <$> l) (g <$> l).
Proof. intros H. induction l; simpl; by constructor. Qed.

Section column.
Context (self : Absori) (σ : store) (a : list R).
Hypothesis Hlen : length (_base_energy self) = n_bin.
Hypothesis Hab : σ !! _abundance self = Some a.
Hypothesis Halen : length a = n_elem.

Lemma evaluate_no_column x redshift temp xi gamma m fe :
  ∃ σ', evaluate self x 0 redshift temp xi gamma m fe σ
        = Ok (replicate (length x) 1, σ').
Proof.
  eexists. rewrite (evaluate_run self σ a) by done. do 2 f_equal.
  apply const_fmap. intros n v _. rewrite Ropp_0, Rmult_0_l. apply exp_0.
Qed.

Lemma evaluate_columns_add x NH1 NH2 redshift temp xi gamma m fe :
  ∃ out1 out2 σ',
    evaluate self x NH1 redshift temp xi gamma m fe σ = Ok (out1, σ') ∧
    evaluate self x NH2 redshift temp xi gamma m fe σ = Ok (out2, σ') ∧
    evaluate self x (NH1 + NH2) redshift temp xi gamma m fe σ
      = Ok (zip_with Rmult out1 out2, σ').
Proof.
  eexists _, _, _. rewrite !(evaluate_run self σ a) by done.
  split; [done|]. split; [done|]. do 2 f_equal.
  apply fmap_product. intros v. rewrite <- exp_plus. f_equal. ring.
Qed.

Hypothesis Hinc :
  ∀ k, (S k < n_bin)%nat →
    nth k (_base_energy self) 0 < nth (S k) (_base_energy self) 0.
Hypothesis Hsigma : ∀ k j i, 0 <= _sigma self k j i.
Hypothesis Hnonneg : Forall (λ v, 0 <= v) a.

Lemma evaluate_column_antitone x NH1 NH2 redshift temp xi gamma m fe :
  NH1 <= NH2 →
  ∃ out1 out2 σ',
    evaluate self x NH1 redshift temp xi gamma m fe σ = Ok (out1, σ') ∧
    evaluate self x NH2 redshift temp xi gamma m fe σ = Ok (out2, σ') ∧
    Forall2 Rle out2 out1.
Proof.
  intros HNH. eexists _, _, _. rewrite !(evaluate_run self σ a) by done.
  split; [done|]. split; [done|].
  apply Forall2_fmap_same. intros v.
  set (o := sum_stage_elem _ * 6.6e-5).
  assert (0 <= o).
  { unfold o. apply Rmult_le_pos; [|lra].
    apply sum_stage_elem_nonneg. intros j i.
    apply Rmult_le_pos; [apply Rmult_le_pos|].
    - apply num_nonneg.
    - by apply adjusted_nonneg.
    - by apply sigma_row_nonneg. }
  destruct (Req_dec (- NH2 * o) (- NH1 * o)) as [->|Hne]; [lra|].
  left. apply exp_increasing. nra.
Qed.

End column.

(** ** The bin widths and [_setup] *)

Lemma deltaE_positive (b : list R) :
  (2 ≤ length b)%nat →
  (∀ k, (S k < length b)%nat → nth k b 0 < nth (S k) b 0) →
  ∃ d, deltaE b = Ok d ∧ length d = length b ∧
    ∀ i, (i < length b)%nat → 0 < nth i d 0.
Proof.
  intros Hlen Hinc.
  destruct (deltaE_spec b Hlen) as (d & Hd & Hl & H0 & Hn & Hi).
  exists d. split; [done|]. split; [done|]. intros i Hlt.
  destruct (decide (i = 0)%nat) as [->|Hi0].
  { rewrite H0. specialize (Hinc 0%nat ltac:(lia)). lra. }
  destruct (decide (i = length b - 1)%nat) as [->|Hil].
  { rewrite Hn. specialize (Hinc (length b - 2)%nat ltac:(lia)).
    replace (S (length b - 2)) with (length b - 1)%nat in Hinc by lia. lra. }
  rewrite Hi by lia.
  pose proof (Hinc (i - 1)%nat ltac:(lia)) as Ha.
  pose proof (Hinc i ltac:(lia)) as Hb.
  replace (S (i - 1)) with i in Ha by lia.
  replace (S i) with (i + 1)%nat in Hb by lia. lra.
Qed.

(** ** The stage that takes the hydrogenic recombination rate *)

Lemma arec_cases self temp i j :
  (1 ≤ _atomicnumber self i ≤ n_stage)%nat →
  arec self temp i j =
  if decide (j = _atomicnumber self i - 1)%nat then arec2 self temp i
  else arec_general self temp i j.
Proof.
  intros HZ. unfold arec. rewrite mask_2_spec by done.
  destruct (decide _); [by rewrite bool_decide_eq_true_2|].
  by rewrite bool_decide_eq_false_2.
Qed.

(** ** The shells of [Integrate_Absori.evaluate] *)

Lemma int_floor r : 0 <= r → IZR (np.int r) <= r < IZR (np.int r) + 1.
Proof.
  intros Hr. unfold np.int. rewrite decide_True by done.
  destruct (base_Int_part r). lra.
Qed.

Lemma shell_width redshift :
  0.02 <= redshift →
  ∃ zsam,
    np.truediv redshift (np.int (redshift / 0.02)) = Ok zsam ∧
    (1 ≤ np.int (redshift / 0.02))%Z ∧
    IZR (np.int (redshift / 0.02)) * zsam = redshift ∧
    0.02 <= zsam < 0.04.
Proof.
  intros Hz.
  assert (Hnz : (1 ≤ np.int (redshift / 0.02))%Z) by (apply int_ge_1; lra).
  destruct (int_floor (redshift / 0.02)) as [Hlo Hhi]; [lra|].
  set (nz := np.int (redshift / 0.02)) in *.
  assert (Hn1 : 1 <= IZR nz) by (by apply IZR_le in Hnz).
  unfold np.truediv. rewrite decide_False by lia.
  eexists. split; [done|]. split; [done|].
  split; [field; lra|].
  split.
  - apply Rmult_le_reg_r with (IZR nz); [lra|].
    unfold Rdiv. rewrite Rmult_assoc, Rinv_l by lra. lra.
  - apply Rmult_lt_reg_r with (IZR nz); [lra|].
    unfold Rdiv. rewrite Rmult_assoc, Rinv_l by lra. lra.
Qed.

Lemma zip_add_nonneg (ts ys : list R) :
  Forall (λ t, 0 <= t) ts → Forall (λ t, 0 <= t) ys →
  Forall (λ t, 0 <= t) (zip_with Rplus ts ys).
Proof.
  intros Ht. revert ys. induction Ht as [|t ts Ht0 Ht IH]; intros ys Hy;
    [constructor|].
  destruct Hy as [|y ys Hy0 Hy]; [constructor|]. simpl.
  constructor; [lra|by apply IH].
Qed.

Section shells.
Context (self : Absori) (x : list R) (num : nat → nat → R)
  (n0 delta zsam : R).
Hypothesis Hlen : length (_base_energy self) = n_bin.
Hypothesis Hinc :
  ∀ k, (S k < n_bin)%nat →
    nth k (_base_energy self) 0 < nth (S k) (_base_energy self) 0.
Hypothesis Hsigma : ∀ k j i, 0 <= _sigma self k j i.
Hypothesis Hnum : ∀ j i, 0 <= num j i.
Hypothesis Hn0 : 0 <= n0.
Hypothesis Hzsam : 0 <= zsam.

Lemma shell_factor_nonneg zz :
  0 <= zz →
  0 <= (zz + 1.0) ^ 2
       / sqrt (Integrate_Absori._omegam * (zz + 1.0) ^ 3
               + Integrate_Absori._omegal)
       * (zsam * Integrate_Absori._c * (n0 * Rpower (zz + 1.0) delta)
          * Integrate_Absori._cmpermpc / Integrate_Absori._h0).
Proof.
  intros Hzz. unfold Integrate_Absori._omegam, Integrate_Absori._omegal,
    Integrate_Absori._c, Integrate_Absori._cmpermpc, Integrate_Absori._h0.
  assert (0 < (zz + 1.0) ^ 3) by (apply pow_lt; lra).
  assert (0 < sqrt (0.3 * (zz + 1.0) ^ 3 + 0.7)) by (apply sqrt_lt_R0; lra).
  assert (0 < Rpower (zz + 1.0) delta) by apply exp_pos.
  apply Rmult_le_pos.
  - apply Rmult_le_pos; [apply pow_le; lra|].
    left. by apply Rinv_0_lt_compat.
  - assert (0 <= n0 * Rpower (zz + 1.0) delta) by (apply Rmult_le_pos; lra).
    assert (0 <= zsam * (n0 * Rpower (zz + 1.0) delta))
      by (by apply Rmult_le_pos).
    replace (zsam * 2.99792458e5 * (n0 * Rpower (zz + 1.0) delta)
             * 3.08568e24 / 70)
      with (zsam * (n0 * Rpower (zz + 1.0) delta)
            * (2.99792458e5 * 3.08568e24 / 70)) by (unfold Rdiv; ring).
    apply Rmult_le_pos; [done|lra].
Qed.

Lemma shells_nonneg count zz taus :
  0 <= zz → length taus = length x → Forall (λ t, 0 <= t) taus →
  ∃ taus',
    Integrate_Absori.shells self x num n0 delta zsam count zz taus = Ok taus' ∧
    length taus' = length x ∧ Forall (λ t, 0 <= t) taus'.
Proof.
  revert zz taus. induction count as [|count IH]; intros zz taus Hzz Hl Ht.
  { by exists taus. }
  cbn [Integrate_Absori.shells].
  rewrite interpolate_sigma_run by done. cbn [mbind res_bind].
  apply IH; [lra| |].
  - rewrite length_zip_with, !length_fmap. lia.
  - pose proof (shell_factor_nonneg zz Hzz) as Hzf.
    revert Hzf. generalize ((zz + 1.0) ^ 2
       / sqrt (Integrate_Absori._omegam * (zz + 1.0) ^ 3
               + Integrate_Absori._omegal)
       * (zsam * Integrate_Absori._c * (n0 * Rpower (zz + 1.0) delta)
          * Integrate_Absori._cmpermpc / Integrate_Absori._h0)).
    intros zf Hzf.
    apply zip_add_nonneg; [done|].
    rewrite <- !list_fmap_compose. apply Forall_fmap, Forall_forall.
    intros v _. simpl. apply Rmult_le_pos; [|done].
    apply Rmult_le_pos; [|lra]. apply Rmult_le_pos; [|lra].
    apply sum_stage_elem_nonneg. intros j i.
    apply Rmult_le_pos; [apply Hnum|]. by apply sigma_row_nonneg.
Qed.

End shells.

Lemma integrate_evaluate_range self (σ : store) a x
    n0 delta redshift temp xi gamma m fe :
  length (_base_energy self) = n_bin →
  (∀ k, (S k < n_bin)%nat →
     nth k (_base_energy self) 0 < nth (S k) (_base_energy self) 0) →
  (∀ k j i, 0 <= _sigma self k j i) →
  σ !! _abundance self = Some a → length a = n_elem →
  Forall (λ v, 0 <= v) a →
  0 <= n0 → 0.02 <= redshift →
  ∃ out σ',
    Integrate_Absori.evaluate self x n0 delta redshift temp xi gamma m fe σ
      = Ok (out, σ') ∧
    length out = length x ∧ Forall (λ t, 0 <= t <= 1) out ∧
    σ' !! _abundance self = Some a.
Proof.
  intros Hlen Hinc Hsig Hab Halen Hnonneg Hn0 Hz.
  destruct (shell_width redshift Hz) as (zsam & Hdiv & Hnz & _ & Hw & _).
  unfold Integrate_Absori.evaluate. rewrite Hdiv.
  unfold mbind at 1. unfold M_bind, lift at 1.
  unfold mbind at 1. unfold M_bind.
  rewrite (adjusted_abundance_run self m fe σ a) by
    (done || rewrite Halen; unfold n_elem; lia).
  unfold mbind at 1. unfold M_bind, read. rewrite lookup_insert_eq.
  unfold mbind at 1. unfold M_bind, lift at 1, weight.
  rewrite decide_True by (by rewrite adjusted_length).
  unfold mbind at 1. unfold M_bind, lift.
  match goal with
  | |- context [Integrate_Absori.shells ?sf ?xs ?nm ?d0 ?dl ?zs ?c ?z0 ?t0] =>
      assert (Hs : ∃ taus',
        Integrate_Absori.shells sf xs nm d0 dl zs c z0 t0 = Ok taus' ∧
        length taus' = length x ∧ Forall (λ t, 0 <= t) taus')
  end.
  { apply shells_nonneg; try done; try lra.
    - intros j i.
      apply Rmult_le_pos; [apply num_nonneg|by apply adjusted_nonneg].
    - unfold np.zeros. by rewrite length_replicate.
    - unfold np.zeros. apply Forall_replicate. lra. }
  destruct Hs as (taus & -> & Hl & Ht).
  eexists _, _. split; [reflexivity|]. split; [by rewrite length_fmap|].
  split.
  - apply Forall_fmap. eapply Forall_impl; [exact Ht|].
    intros t Ht0. simpl. pose proof (exp_neg_unit t Ht0). lra.
  - rewrite lookup_insert_ne; [done|]. by apply fresh_not_stored with a.
Qed.

(** ** The loader [_load_sigma] *)

Lemma fill_spec n a g s f g' s' k' :
  fill n a g s f g' s' k' =
  if decide (g' = g ∧ s' = s ∧ k' < n)%nat then f k' else a g' s' k'.
Proof.
  induction n as [|n IH]; cbn [fill].
  - rewrite decide_False by lia. done.
  - unfold set3. rewrite IH. repeat destruct (decide _); try done; try lia.
    by destruct a0 as (_ & _ & ->).
Qed.

Lemma index_overflow n (i : Z) :
  (Z.of_nat n ≤ i)%Z → np.index n i = Raise IndexError.
Proof.
  intros H. unfold np.index. rewrite decide_False by lia.
  by rewrite decide_False by lia.
Qed.

Lemma writes_trans c1 c2 c st st1 st2 :
  writes c1 st st1 → writes c2 st1 st2 →
  (∀ g s, c g s = match c2 g s with Some r => Some r | None => c1 g s end) →
  writes c st st2.
Proof.
  intros [Hi1 Hs1] [Hi2 Hs2] Hc. split; intros g s k.
  - rewrite Hi2. unfold overlay. rewrite Hc.
    destruct (c2 g s); [destruct (decide _); [done|]|];
      rewrite Hi1; unfold overlay; destruct (c1 g s); try done.
    by rewrite decide_False.
  - rewrite Hs2. unfold overlay. rewrite Hc.
    destruct (c2 g s); [destruct (decide _); [done|]|];
      rewrite Hs1; unfold overlay; destruct (c1 g s); try done.
    by rewrite decide_False.
Qed.

(** A row of the group that is open. *)
Lemma load_row_same st r g s :
  row_Z r = currentZ st →
  iZ st = Z.of_nat g → (g < n_elem)%nat →
  (iIon st + 1)%Z = Z.of_nat s →
  if decide (s < n_stage)%nat then
    ∃ st', load_row st r = Ok st' ∧
      currentZ st' = currentZ st ∧ iZ st' = iZ st ∧ iIon st' = Z.of_nat s ∧
      (∀ g', st_atomicnumber st' g' = st_atomicnumber st g') ∧
      writes (one_cell g s r) st st'
  else load_row st r = Raise IndexError.
Proof.
  intros HZ Hg Hglt Hs. unfold load_row, n_elem, n_stage in *.
  rewrite (decide_False (P := row_Z r ≠ currentZ st)) by
    (intros Hne; by apply Hne).
  cbn [mbind res_bind].
  rewrite Hg, Hs. rewrite (index_nonneg 10 (Z.of_nat g)) by lia.
  cbn [mbind res_bind]. rewrite Nat2Z.id.
  destruct (decide (s < 26)%nat) as [Hslt|Hsge].
  - rewrite (index_nonneg 26 (Z.of_nat s)) by lia.
    cbn [mbind res_bind]. rewrite Nat2Z.id.
    eexists. split; [reflexivity|].
    unfold writes.
    cbv beta iota delta [st_ion st_sigma st_atomicnumber currentZ iZ iIon].
    split; [done|]. split; [done|]. split; [done|]. split; [done|].
    split; intros g' s' k; unfold overlay, one_cell.
    + unfold set3. rewrite !fill_spec.
      destruct (decide (g' = g ∧ s' = s)) as [[-> ->]|Hne].
      * unfold converted.
        repeat (destruct (decide _); try lia; try done);
          destruct_and?; subst; try done; lia.
      * repeat (destruct (decide _); try lia; try done); exfalso; naive_solver.
    + rewrite fill_spec.
      destruct (decide (g' = g ∧ s' = s)) as [[-> ->]|Hne].
      * repeat (destruct (decide _); try lia; try done).
      * repeat (destruct (decide _); try lia; try done); exfalso; naive_solver.
  - rewrite (index_overflow 26 (Z.of_nat s)) by lia. done.
Qed.

(** The first row of a new group. *)
Lemma load_row_new st r g :
  row_Z r ≠ currentZ st →
  (iZ st + 1)%Z = Z.of_nat g →
  if decide (g < n_elem)%nat then
    ∃ st', load_row st r = Ok st' ∧
      currentZ st' = row_Z r ∧ iZ st' = Z.of_nat g ∧ iIon st' = 0%Z ∧
      (∀ g', st_atomicnumber st' g'
             = if decide (g' = g) then row_Z r else st_atomicnumber st g') ∧
      writes (one_cell g 0 r) st st'
  else load_row st r = Raise IndexError.
Proof.
  intros HZ Hg.
  destruct (decide (g < n_elem)%nat) as [Hglt|Hge].
  - set (st0 := {| st_ion := st_ion st; st_sigma := st_sigma st;
                   st_atomicnumber := set1 (st_atomicnumber st) g (row_Z r);
                   currentZ := row_Z r; iZ := Z.of_nat g; iIon := (-1)%Z |}).
    assert (Heq : load_row st r = load_row st0 r).
    { unfold load_row at 1. rewrite decide_True by done. rewrite Hg.
      rewrite (index_nonneg n_elem (Z.of_nat g)) by lia.
      cbn [mbind res_bind]. rewrite Nat2Z.id. fold st0.
      unfold load_row. rewrite (decide_False (P := row_Z r ≠ currentZ st0));
        [done|]. intros Hne. by apply Hne. }
    pose proof (load_row_same st0 r g 0 eq_refl eq_refl Hglt eq_refl) as H.
    rewrite decide_True in H by (unfold n_stage; lia).
    destruct H as (st' & Hrun & Hc & Hi & Hs & Ha & Hw).
    exists st'. rewrite Heq. split; [done|]. split; [done|]. split; [done|].
    split; [done|]. split; [intros g'; by rewrite Ha|done].
  - unfold load_row. rewrite decide_True by done. rewrite Hg.
    rewrite (index_overflow n_elem (Z.of_nat g)) by lia. done.
Qed.

Lemma writes_nothing c st :
  (∀ g s, c g s = None) → writes c st st.
Proof. intros Hc. split; intros g s k; unfold overlay; by rewrite Hc. Qed.

(** Further rows of the open group. *)
Lemma run_same rs : ∀ st g s0,
  Forall (λ r, row_Z r = currentZ st) rs →
  iZ st = Z.of_nat g → (g < n_elem)%nat →
  (iIon st + 1)%Z = Z.of_nat s0 → (s0 ≤ n_stage)%nat →
  if decide (s0 + length rs ≤ n_stage)%nat then
    ∃ st', load_rows st rs = Ok st' ∧
      currentZ st' = currentZ st ∧ iZ st' = iZ st ∧
      (iIon st' + 1)%Z = Z.of_nat (s0 + length rs) ∧
      (∀ g', st_atomicnumber st' g' = st_atomicnumber st g') ∧
      writes (run_cells g s0 rs) st st'
  else load_rows st rs = Raise IndexError.
Proof.
  induction rs as [|r rs IH]; intros st g s0 HZ Hg Hglt Hs Hs0.
  - rewrite decide_True by (simpl; lia). exists st. simpl.
    split; [done|]. split; [done|]. split; [done|]. split; [lia|].
    split; [done|]. apply writes_nothing. intros g' s'. unfold run_cells.
    by destruct (decide _).
  - apply Forall_cons in HZ as [Hr HZ]. cbn [load_rows length].
    pose proof (load_row_same st r g s0 Hr Hg Hglt Hs) as H1.
    destruct (decide (s0 < n_stage)%nat) as [Hlt|Hge]; last first.
    { rewrite H1. rewrite decide_False by lia. done. }
    destruct H1 as (st1 & -> & Hc1 & Hi1 & Hs1 & Ha1 & Hw1).
    cbn [mbind res_bind].
    rewrite <- Hc1 in HZ.
    specialize (IH st1 g (S s0) HZ ltac:(congruence) Hglt ltac:(lia) ltac:(lia)).
    replace (S s0 + length rs)%nat with (s0 + S (length rs))%nat in IH by lia.
    destruct (decide (s0 + S (length rs) ≤ n_stage)%nat); [|done].
    destruct IH as (st' & Hrun & Hc & Hi & Hs' & Ha & Hw).
    exists st'. split; [done|]. split; [congruence|]. split; [congruence|].
    split; [done|]. split; [intros g'; by rewrite Ha|].
    eapply writes_trans; [exact Hw1|exact Hw|].
    intros g' s'. unfold run_cells, one_cell.
    destruct (decide (g' = g ∧ s0 ≤ s')%nat) as [[-> Hle]|Hn].
    + destruct (decide (s' = s0)) as [->|Hne].
      * rewrite Nat.sub_diag. rewrite decide_False by lia.
        by rewrite decide_True.
      * rewrite decide_True by lia.
        replace (s' - s0)%nat with (S (s' - S s0)) by lia. simpl.
        destruct (rs !! _); [done|]. by rewrite decide_False by lia.
    + rewrite decide_False by lia. by rewrite decide_False by lia.
Qed.

(** A whole group. *)
Lemma run_group st grp g :
  grp ≠ [] → Forall (λ r, row_Z r = group_Z grp) grp →
  group_Z grp ≠ currentZ st → (iZ st + 1)%Z = Z.of_nat g →
  if decide (g < n_elem ∧ length grp ≤ n_stage)%nat then
    ∃ st', load_rows st grp = Ok st' ∧
      currentZ st' = group_Z grp ∧ (iZ st' + 1)%Z = Z.of_nat (S g) ∧
      (∀ g', st_atomicnumber st' g'
             = if decide (g' = g) then group_Z grp
               else st_atomicnumber st g') ∧
      writes (run_cells g 0 grp) st st'
  else load_rows st grp = Raise IndexError.
Proof.
  intros Hne Hall HZ Hg. destruct grp as [|r rs]; [done|].
  cbn [group_Z] in *. apply Forall_cons in Hall as [_ Hall].
  cbn [load_rows length].
  pose proof (load_row_new st r g HZ Hg) as H1.
  destruct (decide (g < n_elem)%nat) as [Hglt|Hge]; last first.
  { rewrite H1. rewrite decide_False by lia. done. }
  destruct H1 as (st1 & -> & Hc1 & Hi1 & Hs1 & Ha1 & Hw1).
  cbn [mbind res_bind].
  rewrite <- Hc1 in Hall.
  pose proof (run_same rs st1 g 1 Hall Hi1 Hglt ltac:(lia)
                ltac:(unfold n_stage; lia)) as H2.
  destruct (decide (1 + length rs ≤ n_stage)%nat) as [Hl|Hl]; last first.
  { rewrite H2. rewrite decide_False by (simpl in *; lia). done. }
  rewrite decide_True by (simpl in *; lia).
  destruct H2 as (st' & Hrun & Hc & Hi & Hs' & Ha & Hw).
  exists st'. split; [done|]. split; [congruence|]. split; [lia|].
  split; [intros g'; by rewrite Ha, Ha1|].
  eapply writes_trans; [exact Hw1|exact Hw|].
  intros g' s'. unfold run_cells, one_cell.
  destruct (decide (g' = g ∧ 0 ≤ s')%nat) as [[-> Hle]|Hn].
  - destruct s' as [|s'].
    + rewrite decide_False by lia. by rewrite decide_True.
    + rewrite decide_True by lia. simpl. rewrite Nat.sub_0_r.
      destruct (rs !! _); [done|]. by rewrite decide_False by lia.
  - rewrite decide_False by lia. by rewrite decide_False by lia.
Qed.

Lemma load_rows_app rs1 : ∀ st rs2,
  load_rows st (rs1 ++ rs2) = st' ← load_rows st rs1; load_rows st' rs2.
Proof.
  induction rs1 as [|r rs1 IH]; intros st rs2; [done|].
  cbn [app load_rows]. destruct (load_row st r); [|done].
  cbn [mbind res_bind]. apply IH.
Qed.

(** All groups, from the element index [g0]. *)
Lemma run_groups gs : ∀ st g0,
  grouped (currentZ st) gs → (iZ st + 1)%Z = Z.of_nat g0 →
  (g0 ≤ n_elem)%nat →
  if decide (g0 + length gs ≤ n_elem
             ∧ Forall (λ grp, length grp ≤ n_stage) gs)%nat then
    ∃ st', load_rows st (concat gs) = Ok st' ∧
      (∀ g', st_atomicnumber st' g'
             = if decide (g0 ≤ g')%nat then
                 match gs !! (g' - g0)%nat with
                 | Some grp => group_Z grp
                 | None => st_atomicnumber st g'
                 end
               else st_atomicnumber st g') ∧
      writes (group_cells g0 gs) st st'
  else load_rows st (concat gs) = Raise IndexError.
Proof.
  induction gs as [|grp gs IH]; intros st g0 Hgr Hg Hg0.
  - rewrite decide_True by (split; [simpl; lia|constructor]).
    exists st. split; [done|]. split.
    + intros g'. destruct (decide _); [|done]. by rewrite lookup_nil.
    + apply writes_nothing. intros g' s'. unfold group_cells.
      destruct (decide _); [|done]. by rewrite lookup_nil.
  - destruct Hgr as (Hne & Hall & HZ & Hgr). cbn [concat length].
    rewrite load_rows_app.
    pose proof (run_group st grp g0 Hne Hall HZ Hg) as H1.
    destruct (decide (g0 < n_elem ∧ length grp ≤ n_stage)%nat) as [[Hl1 Hl2]|Hn];
      last first.
    { rewrite H1. rewrite decide_False; [done|].
      intros [Hlen Hf]. apply Forall_cons in Hf as [Hf _]. lia. }
    destruct H1 as (st1 & -> & Hc1 & Hi1 & Ha1 & Hw1). cbn [mbind res_bind].
    rewrite <- Hc1 in Hgr.
    specialize (IH st1 (S g0) Hgr Hi1 ltac:(lia)).
    destruct (decide (S g0 + length gs ≤ n_elem
                      ∧ Forall (λ grp, length grp ≤ n_stage) gs)%nat)
      as [[Hl3 Hf]|Hn]; last first.
    { rewrite IH. rewrite decide_False; [done|].
      intros [Hlen Hf]. apply Forall_cons in Hf as [_ Hf]. apply Hn.
      split; [lia|done]. }
    rewrite decide_True by (split; [lia|by constructor]).
    destruct IH as (st' & Hrun & Ha & Hw). exists st'. split; [done|]. split.
    + intros g'. rewrite Ha, Ha1.
      destruct (decide (S g0 ≤ g')%nat) as [Hle|Hgt].
      * rewrite (decide_True (P := (g0 ≤ g')%nat)) by lia.
        replace (g' - g0)%nat with (S (g' - S g0)) by lia. simpl.
        destruct (gs !! _); [done|].
        by rewrite (decide_False (P := g' = g0)) by lia.
      * destruct (decide (g' = g0)) as [->|Hne0].
        -- rewrite (decide_True (P := (g0 ≤ g0)%nat)) by lia.
           by rewrite Nat.sub_diag.
        -- by rewrite (decide_False (P := (g0 ≤ g')%nat)) by lia.
    + eapply writes_trans; [exact Hw1|exact Hw|].
      intros g' s'. unfold group_cells, run_cells.
      destruct (decide (S g0 ≤ g')%nat) as [Hle|Hgt].
      * rewrite decide_True by lia.
        replace (g' - g0)%nat with (S (g' - S g0)) by lia. simpl.
        destruct (gs !! _) as [grp'|]; simpl.
        -- destruct (grp' !! s'); [done|]. by rewrite decide_False by lia.
        -- by rewrite decide_False by lia.
      * destruct (decide (g' = g0)) as [->|Hne0].
        -- rewrite decide_True by lia. rewrite Nat.sub_diag. simpl.
           rewrite decide_True by lia. by rewrite Nat.sub_0_r.
        -- rewrite decide_False by lia. by rewrite decide_False by lia.
Qed.

(** The whole loader on a table in groups. *)
Lemma load_sigma_groups (unset : nat → Z)
    (gs : list (list fits_row)) (energy : list R) :
  grouped (-1) gs →
  (length gs ≤ n_elem)%nat →
  Forall (λ grp, (length grp ≤ n_stage)%nat) gs →
  ∃ d,
    _load_sigma unset (concat gs) energy = Ok d ∧
    energy_ d = energy ∧
    (∀ g, atomicnumber_ d g
          = match gs !! g with
            | Some grp => group_Z grp
            | None => unset g
            end) ∧
    (∀ g s k, ion_ d g s k
          = match gs !! g ≫= (λ grp, grp !! s) with
            | Some r => if decide (k < 10)%nat
                        then converted k (row_IONDATA r k) else 0
            | None => 0
            end) ∧
    (∀ g s k, sigma_ d g s k
          = match gs !! g ≫= (λ grp, grp !! s) with
            | Some r => if decide (k < n_bin)%nat
                        then row_SIGMA r k / 6.6e-27 else 0
            | None => 0
            end).
Proof.
  intros Hgr Hlen Hall. unfold _load_sigma.
  set (st0 := {| st_ion := λ _ _ _, 0; st_sigma := λ _ _ _, 0;
                 st_atomicnumber := unset;
                 currentZ := (-1)%Z; iZ := (-1)%Z; iIon := (-1)%Z |}).
  pose proof (run_groups gs st0 0 Hgr eq_refl ltac:(lia)) as H.
  rewrite decide_True in H by (split; [simpl; lia|done]).
  destruct H as (st' & -> & Ha & Hi & Hs). cbn [mbind res_bind].
  eexists. split; [reflexivity|].
  cbv beta iota delta [energy_ atomicnumber_ ion_ sigma_].
  split; [done|]. split_and!.
  - intros g. rewrite Ha. rewrite decide_True by lia.
    by rewrite Nat.sub_0_r.
  - intros g s k. rewrite Hi. unfold overlay, group_cells.
    rewrite decide_True by lia. rewrite Nat.sub_0_r.
    destruct (gs !! g ≫= _); [|done]. by destruct (decide _).
  - intros g s k. rewrite Hs. unfold overlay, group_cells.
    rewrite decide_True by lia. rewrite Nat.sub_0_r.
    destruct (gs !! g ≫= _); [|done]. by destruct (decide _).
Qed.

Lemma load_sigma_overflow (unset : nat → Z)
    (gs : list (list fits_row)) (energy : list R) :
  grouped (-1) gs →
  (n_elem < length gs)%nat ∨ Exists (λ grp, (n_stage < length grp)%nat) gs →
  _load_sigma unset (concat gs) energy = Raise IndexError.
Proof.
  intros Hgr Hbad. unfold _load_sigma.
  set (st0 := {| st_ion := λ _ _ _, 0; st_sigma := λ _ _ _, 0;
                 st_atomicnumber := unset;
                 currentZ := (-1)%Z; iZ := (-1)%Z; iIon := (-1)%Z |}).
  pose proof (run_groups gs st0 0 Hgr eq_refl ltac:(lia)) as H.
  rewrite decide_False in H; [by rewrite H|].
  intros [Hlen Hall]. destruct Hbad as [Hbad|Hbad]; [simpl in Hlen; lia|].
  apply Exists_exists in Hbad as (grp & Hin & Hl).
  rewrite Forall_forall in Hall. specialize (Hall grp Hin). simpl in Hall. lia.
Qed.

(** Every table is a table in groups. *)
Lemma rows_grouped (rows : list fits_row) (r : fits_row) :
  ∃ grp gs,
    concat (grp :: gs) = r :: rows ∧ group_Z grp = row_Z r ∧
    ∀ prev, prev ≠ row_Z r → grouped prev (grp :: gs).
Proof.
  revert r. induction rows as [|r' rows IH]; intros r.
  - exists [r], []. split; [done|]. split; [done|].
    intros prev Hp. simpl. split_and!; try done. by repeat constructor.
  - destruct (IH r') as (grp & gs & Hcat & HZ & Hgr).
    destruct (decide (row_Z r = row_Z r')) as [Heq|Hne].
    + exists (r :: grp), gs. split; [simpl in *; by rewrite Hcat|].
      split; [done|]. intros prev Hp.
      destruct grp as [|r0 grp]; [simpl in HZ|].
      { specialize (Hgr (row_Z r' + 1)%Z ltac:(lia)). simpl in Hgr.
        by destruct Hgr as [? _]. }
      simpl in HZ.
      destruct (Hgr (row_Z r' + 1)%Z ltac:(lia)) as (_ & Hall & _ & Hrest).
      cbn [group_Z] in Hall, Hrest. cbn [grouped group_Z].
      split_and!; try done.
      * constructor; [done|].
        eapply Forall_impl; [exact Hall|]. intros x Hx. simpl in *. congruence.
      * by rewrite Heq, <- HZ.
    + exists [r], (grp :: gs). split; [simpl in *; by rewrite Hcat|].
      split; [done|]. intros prev Hp.
      change (grouped prev ([r] :: grp :: gs))
        with ([r] ≠ [] ∧ Forall (λ r0, row_Z r0 = row_Z r) [r] ∧
              row_Z r ≠ prev ∧ grouped (row_Z r) (grp :: gs)).
      split; [done|]. split; [by repeat constructor|].
      split; [congruence|]. apply (Hgr (row_Z r)). congruence.
Qed.

Lemma load_sigma_fails_by_overflow_only (unset : nat → Z)
    (r : fits_row) (rows : list fits_row) (energy : list R) :
  row_Z r ≠ (-1)%Z →
  ∃ gs,
    concat gs = r :: rows ∧ grouped (-1) gs ∧
    (_load_sigma unset (r :: rows) energy = Raise IndexError
     ↔ (n_elem < length gs)%nat
       ∨ Exists (λ grp, (n_stage < length grp)%nat) gs).
Proof.
  intros Hr. destruct (rows_grouped rows r) as (grp & gs & Hcat & HZ & Hgr).
  specialize (Hgr (-1)%Z ltac:(congruence)).
  exists (grp :: gs). split; [done|]. split; [done|]. rewrite <- Hcat. split.
  - intros Hraise.
    destruct (decide (length (grp :: gs) ≤ n_elem)%nat) as [Hlen|]; [|left; lia].
    destruct (decide (Forall (λ g, (length g ≤ n_stage)%nat) (grp :: gs)))
      as [Hall|Hnot].
    + destruct (load_sigma_groups unset (grp :: gs) energy Hgr Hlen Hall)
        as (d & Hd & _).
      rewrite Hd in Hraise. discriminate.
    + right. apply not_Forall_Exists in Hnot; [|apply _].
      eapply Exists_impl; [exact Hnot|]. intros x Hx. simpl in Hx. lia.
  - by apply load_sigma_overflow.
Qed.


(** Helium in the small instance, both stages. *)
Lemma toy_helium_rates k :
  (k < _atomicnumber toy 1)%nat →
  0 < arec toy 10000 1 k ∧ 0 < intgral toy toy_spec 1 k.
Proof.
  intros Hk. change (_atomicnumber toy 1) with 2%nat in Hk.
  rewrite toy_intgral by toy_nat. split; [|lra].
  rewrite arec_cases by toy_nat.
  change (_atomicnumber toy 1) with 2%nat.
  destruct (decide (k = 2 - 1)%nat) as [->|Hne].
  - apply toy_helium_arec2.
  - assert (k = 0)%nat as -> by lia.
    unfold arec_general. rewrite toy_t4. simpl _ion.
    unfold Rpower. rewrite ln_1, Rmult_0_r, exp_0. lra.
Qed.

(** ** The mask loops and [_max_atomicnumber] of [_setup] *)

Lemma mask_2_loop_run (a : nat → nat) count : ∀ i,
  (∀ k, (i ≤ k < i + count)%nat → (a k ≤ n_stage)%nat) →
  mask_2_loop a i count = Ok ().
Proof.
  induction count as [|count IH]; intros i H; [done|].
  cbn [mask_2_loop].
  assert (Hi : (a i ≤ n_stage)%nat) by (apply H; lia).
  assert (∃ k, np.index n_stage (Z.of_nat (a i) - 1) = Ok k) as [k ->].
  { destruct (decide (a i = 0)%nat) as [H0|H0].
    - eexists. apply index_neg. unfold n_stage. lia.
    - eexists. apply index_nonneg. lia. }
  cbn [mbind res_bind]. apply IH. intros k' Hk'. apply H. lia.
Qed.

Lemma mask_2_loop_overflow (a : nat → nat) count : ∀ i k,
  (i ≤ k < i + count)%nat → (n_stage < a k)%nat →
  mask_2_loop a i count = Raise IndexError.
Proof.
  induction count as [|count IH]; intros i k Hk Hbig; [lia|].
  cbn [mask_2_loop].
  destruct (np.index n_stage (Z.of_nat (a i) - 1)) as [m|e] eqn:Hix.
  - cbn [mbind res_bind]. destruct (decide (k = i)) as [->|Hne].
    + rewrite index_overflow in Hix by lia. discriminate.
    + apply (IH (S i) k); [lia|done].
  - revert Hix. unfold np.index. repeat destruct (decide _); try done.
    by intros [= <-].
Qed.

Lemma max_atomicnumber_spec (a : nat → nat) b :
  (∀ i, (i < n_elem)%nat → (a i ≤ b)%nat) →
  (∃ i, (i < n_elem)%nat ∧ a i = b) →
  max_atomicnumber a = b.
Proof.
  intros Hle (i & Hi & Hb). unfold max_atomicnumber.
  assert (Hin : ∀ l, (∀ k, k ∈ l → (a k ≤ b)%nat) →
            (foldr (λ k m, Nat.max (a k) m) 0 l ≤ b)%nat
            ∧ ∀ k, k ∈ l → (a k ≤ foldr (λ k m, Nat.max (a k) m) 0 l)%nat).
  { induction l as [|k l IH]; intros Hl.
    - split; [simpl; lia|]. intros k Hk. by apply elem_of_nil in Hk.
    - destruct IH as [IH1 IH2]; [intros; apply Hl; by right|].
      assert (a k ≤ b)%nat by (apply Hl; by left).
      split; [simpl; lia|]. intros k' Hk'. simpl.
      apply elem_of_cons in Hk' as [->|Hk']; [lia|].
      specialize (IH2 k' Hk'). lia. }
  destruct (Hin (seq 0 n_elem)) as [H1 H2].
  { intros k Hk. apply Hle. apply elem_of_seq in Hk. lia. }
  specialize (H2 i). rewrite elem_of_seq in H2.
  specialize (H2 ltac:(lia)). lia.
Qed.

Lemma setup_run d abundance ion_spec (σ : store) dE :
  (∀ i, (i < n_elem)%nat → (ld_atomicnumber d i ≤ n_stage)%nat) →
  deltaE (ld_energy d) = Ok dE →
  _setup d abundance ion_spec σ =
  Ok ({| _ion := ld_ion d;
         _sigma := λ k j i, ld_sigma d i j k;
         _atomicnumber := ld_atomicnumber d;
         _max_atomicnumber := max_atomicnumber (ld_atomicnumber d);
         _base_energy := ld_energy d;
         _deltaE := dE;
         _abundance := fresh (dom σ);
         calc_ion_spec_numba := ion_spec |},
      <[fresh (dom σ) := abundance]> σ).
Proof.
  intros Hz HdE. unfold _setup.
  rewrite mask_2_loop_run by (intros k Hk; apply Hz; lia).
  by rewrite HdE.
Qed.

Lemma setup_overflow d abundance ion_spec (σ : store) :
  (∃ i, (i < n_elem)%nat ∧ (n_stage < ld_atomicnumber d i)%nat) →
  _setup d abundance ion_spec σ = Raise IndexError.
Proof.
  intros (i & Hi & Hbig). unfold _setup.
  by rewrite (mask_2_loop_overflow _ _ 0 i) by (done || lia).
Qed.

Lemma setup_then_evaluate d abundance ion_spec (σ : store)
    x NH redshift temp xi gamma m fe :
  length (ld_energy d) = n_bin → length abundance = n_elem →
  (∀ i, (i < n_elem)%nat → (ld_atomicnumber d i ≤ n_stage)%nat) →
  (∃ i, (i < n_elem)%nat ∧ ld_atomicnumber d i = n_stage) →
  ∃ self σ1 out σ2,
    _setup d abundance ion_spec σ = Ok (self, σ1) ∧
    _max_atomicnumber self = n_stage ∧
    σ !! _abundance self = None ∧
    σ1 = <[_abundance self := abundance]> σ ∧
    evaluate self x NH redshift temp xi gamma m fe σ1 = Ok (out, σ2) ∧
    length out = length x ∧
    σ2 !! _abundance self = Some abundance.
Proof.
  intros Hlen Halen Hz Hmax.
  destruct (deltaE_spec (ld_energy d)) as (dE & HdE & _).
  { rewrite Hlen. unfold n_bin. lia. }
  rewrite (setup_run d abundance ion_spec σ dE Hz HdE).
  eexists _, _, _, _. split; [reflexivity|]. cbn [_abundance _max_atomicnumber].
  split; [by apply max_atomicnumber_spec|].
  split; [apply not_elem_of_dom, is_fresh|]. split; [done|].
  assert (Hab : <[fresh (dom σ) := abundance]> σ !! fresh (dom σ)
                = Some abundance) by apply lookup_insert_eq.
  split; [by apply evaluate_run|]. split; [by rewrite length_fmap|].
  rewrite lookup_insert_ne; [done|]. by apply fresh_not_stored with abundance.
Qed.

Lemma toy_atomicnumber_le i :
  (i < n_elem)%nat → (toy_atomicnumber i ≤ n_stage)%nat.
Proof.
  unfold n_elem, n_stage. intros Hi.
  do 10 (destruct i as [|i]; [cbv; lia|]). lia.
Qed.

(** ** The underflow of [np.exp] *)

Lemma exp_binary64_unit t : 0 <= t → 0 <= exp_binary64 (- t) <= 1.
Proof.
  intros Ht. unfold exp_binary64. destruct (decide _); [lra|].
  pose proof (exp_neg_unit t Ht). lra.
Qed.

Lemma exp_binary64_zero t : 1075 <= t → exp_binary64 (- t) = 0.
Proof.
  intros Ht. unfold exp_binary64. rewrite decide_True; [done|].
  pose proof (ln_bounds 2 ltac:(lra)). nra.
Qed.

Lemma evaluate_binary64_run self (σ : store) a
    x NH redshift temp xi gamma m fe :
  length (_base_energy self) = n_bin →
  σ !! _abundance self = Some a → length a = n_elem →
  evaluate_binary64 self x NH redshift temp xi gamma m fe σ =
  Ok ((λ v, exp_binary64 (- NH * (sum_stage_elem (λ j i,
              _calc_num self (_calc_ion_spec self gamma) temp xi j i
              * nth i (adjusted a m fe) 0
              * sigma_row self (nth 0 (_base_energy self) 0)
                  (nth 720 (_base_energy self) 0)
                  (1000 * (v * (1 + redshift))) j i) * 6.6e-5))) <$> x,
      <[fresh (dom σ) := adjusted a m fe]> σ).
Proof.
  intros Hlen Hab Halen. unfold evaluate_binary64. unfold mbind, M_bind.
  rewrite (calc_opacity_run self σ a) by done.
  unfold mret, M_ret. by rewrite <- !list_fmap_compose.
Qed.

Lemma sum_ge_term n (f : nat → R) k :
  (∀ j, (j < n)%nat → 0 <= f j) → (k < n)%nat → f k <= np.sum n f.
Proof.
  induction n as [|n IH]; intros H Hk; [lia|]. cbn [np.sum].
  assert (0 <= np.sum n f) by (apply sum_nonneg; intros; apply H; lia).
  assert (0 <= f n) by (apply H; lia).
  destruct (decide (k = n)) as [->|Hne]; [lra|].
  assert (f k <= np.sum n f) by (apply IH; [intros; apply H; lia|lia]). lra.
Qed.

Lemma sum_stage_elem_ge_term (f : nat → nat → R) j i :
  (∀ j i, 0 <= f j i) → (j < n_stage)%nat → (i < n_elem)%nat →
  f j i <= sum_stage_elem f.
Proof.
  intros Hf Hj Hi. unfold sum_stage_elem.
  apply Rle_trans with (np.sum n_elem (λ i, f j i)).
  - by apply (sum_ge_term n_elem (λ i, f j i) i).
  - apply (sum_ge_term n_stage (λ j, np.sum n_elem (λ i, f j i)) j); [|done].
    intros j' _. apply sum_nonneg. intros i' _. apply Hf.
Qed.

(** Hydrogen in the small instance under a flat ionizing spectrum
    ([gamma = 0]) at [temp = 10000], [xi = 1]. *)

Lemma toy_flat_spec k : (k < n_bin)%nat → _calc_ion_spec toy 0 k = 1.
Proof.
  intros Hk. unfold _calc_ion_spec. cbn [calc_ion_spec_numba toy _deltaE].
  rewrite (nth_lookup (replicate n_bin 1)), lookup_replicate_2 by done.
  unfold Rpower. rewrite Ropp_0, Rmult_0_l, exp_0. simpl. lra.
Qed.

Lemma toy_hydrogen_intgral : intgral toy (_calc_ion_spec toy 0) 0 0 = 721.
Proof.
  unfold intgral.
  rewrite (sum_ext _ _ (λ _, 1)).
  - rewrite sum_const. unfold n_bin. rewrite INR_IZR_INZ.
    change (Z.of_nat 721) with 721%Z. lra.
  - intros k Hk. rewrite toy_flat_spec by done. cbn [_sigma toy].
    rewrite decide_True by (cbv; lia). lra.
Qed.

Lemma toy_hydrogen_arec : 1.7e-3 < arec toy 10000 0 0.
Proof.
  rewrite arec_cases by toy_nat.
  rewrite decide_True by toy_nat.
  unfold arec2, tfact, y, z2. rewrite toy_t4, sqrt_1.
  simpl _atomicnumber. change (toy_atomicnumber 0 ^ 2)%nat with 1%nat.
  rewrite INR_IZR_INZ. change (Z.of_nat 1) with 1%Z.
  replace (15.8 * 1 / 1) with 15.8 by lra.
  pose proof (ln_bounds 15.8 ltac:(lra)) as [Hl Hu].
  assert (0 < 1 / (6 * 15.8)) by (apply Rdiv_lt_0_compat; lra).
  nra.
Qed.

Lemma toy_hydrogen_neutral :
  1 / 3 < _calc_num toy (_calc_ion_spec toy 0) 10000 1 0 0.
Proof.
  assert (HZ : (1 ≤ _atomicnumber toy 0 ≤ n_stage)%nat) by toy_nat.
  rewrite (num_first_direct toy _ 10000 0 HZ 1).
  change (_atomicnumber toy 0) with 1%nat. cbn [np.sum pow].
  pose proof toy_hydrogen_arec as Ha.
  assert (Hr : exp (ratio toy (_calc_ion_spec toy 0) 10000 0 0) < 2).
  { unfold ratio. rewrite decide_False by lra.
    rewrite toy_hydrogen_intgral.
    revert Ha. generalize (arec toy 10000 0 0). intros a Ha.
    rewrite exp_ln by (apply Rdiv_lt_0_compat; lra).
    apply Rmult_lt_reg_r with a; [lra|].
    replace (3.2749e-6 * 721 / a * a) with (3.2749e-6 * 721) by (field; lra).
    lra. }
  assert (Hx : exp (xil 1) = 1).
  { unfold xil. rewrite decide_False by lra. by rewrite ln_1, exp_0. }
  rewrite Hx, !Rplus_0_l, exp_0.
  pose proof (exp_pos (ratio toy (_calc_ion_spec toy 0) 10000 0 0)) as Hp.
  revert Hp Hr.
  generalize (exp (ratio toy (_calc_ion_spec toy 0) 10000 0 0)).
  intros w Hp Hw. replace (1 * 1 + w * (1 * 1)) with (1 + w) by ring.
  apply Rmult_lt_reg_r with (1 + w); [lra|]. rewrite Rinv_l by lra. lra.
Qed.

Lemma toy_thick_column :
  ∃ σ', evaluate_binary64 toy [0.3] 1e8 0 10000 1 0 0 0 toy_store
        = Ok ([0], σ').
Proof.
  eexists.
  rewrite (evaluate_binary64_run toy toy_store (replicate n_elem 1))
    by first [apply toy_energy_length | apply toy_store_abundance | done].
  cbn [fmap list_fmap]. do 3 f_equal.
  rewrite Ropp_mult_distr_l_reverse. apply exp_binary64_zero.
  match goal with |- 1075 <= 1e8 * (sum_stage_elem ?f * 6.6e-5) =>
    assert (Hf : ∀ j i, 0 <= f j i);
    [|pose proof (sum_stage_elem_ge_term f 0%nat 0%nat Hf
        ltac:(unfold n_stage; lia) ltac:(unfold n_elem; lia)) as Hterm]
  end.
  { intros j i. apply Rmult_le_pos; [apply Rmult_le_pos|].
    - apply num_nonneg.
    - apply adjusted_nonneg, toy_abundance_nonneg.
    - apply (sigma_row_nonneg toy toy_energy_length toy_energy_increasing
               toy_sigma_nonneg). }
  cbv beta in Hterm. clear Hf.
  destruct (adjusted_entries (replicate n_elem 1) 0 0 eq_refl) as (Hab & _).
  rewrite (Hab 0%nat) in Hterm by lia.
  change (nth 0 (replicate n_elem 1) 0) with 1 in Hterm.
  assert (He : 1000 * (0.3 * (1 + 0)) = nth 299 (_base_energy toy) 0).
  { change (_base_energy toy) with toy_energy.
    rewrite toy_energy_nth by (unfold n_bin; lia).
    rewrite INR_IZR_INZ. change (Z.of_nat 300) with 300%Z. lra. }
  rewrite He in Hterm |- *.
  rewrite sigma_row_in_range in Hterm
    by (apply (grid_point_in_range toy toy_energy_length toy_energy_increasing);
        unfold n_bin; lia).
  rewrite (interp_sigma_grid_point toy toy_energy_length toy_energy_increasing)
    in Hterm by (unfold n_bin; lia).
  cbn [_sigma toy] in Hterm. rewrite decide_True in Hterm by (cbv; lia).
  pose proof toy_hydrogen_neutral. lra.
Qed.

(** * The claims *)

(** ** C1: the stage populations of an element *)

(** C1, as stated, fails: for hydrogen in the small instance at
    [temp = 10000], [xi = 1] the populations over all rows of [num] do not
    sum to 1. *)
Lemma C1_total_not_one :
  ¬ (stage_total (_calc_num toy toy_spec 10000 1) 0 = 1).
Proof.
  pose proof (stage_total_stripped toy toy_spec 10000 1 0 ltac:(toy_nat)).
  pose proof (stripped_fraction_pos toy toy_spec 10000 1 0 ltac:(toy_nat)).
  lra.
Qed.

(** C1, amended: for [temp > 0], any [xi] (also [xi <= 0]) and any element
    with atomic number between 1 and 26 whose valid stages have positive
    rates, the populations over all rows of [num], together with the share
    [emul[Z-1] / s] of the fully stripped ion that has no row, sum to 1;
    that share is not negative, so the rows alone sum to at most 1; every
    entry at a stage [>= atomicNumber] is exactly 0. *)
Theorem C1_stage_total (self : Absori) (spec : nat → R) (temp xi : R)
    (i : nat) :
  0 < temp →
  (1 ≤ _atomicnumber self i ≤ n_stage)%nat →
  (∀ k, (k < _atomicnumber self i)%nat →
     0 < arec self temp i k ∧ 0 < intgral self spec i k) →
  stage_total (_calc_num self spec temp xi) i
    + stripped_fraction self spec temp xi i = 1
  ∧ 0 <= stripped_fraction self spec temp xi i
  ∧ stage_total (_calc_num self spec temp xi) i <= 1
  ∧ ∀ j, (_atomicnumber self i ≤ j)%nat → _calc_num self spec temp xi j i = 0.
Proof.
  intros _ HZ _.
  pose proof (stage_total_stripped self spec temp xi i HZ) as Hsum.
  pose proof (stripped_fraction_pos self spec temp xi i HZ) as Hpos.
  split_and!; [done|lra|lra|].
  intros j Hj. by apply num_invalid.
Qed.

Lemma C1_stage_total_witness :
  stage_total (_calc_num toy toy_spec 10000 (-1)) 1
    + stripped_fraction toy toy_spec 10000 (-1) 1 = 1
  ∧ 0 <= stripped_fraction toy toy_spec 10000 (-1) 1
  ∧ stage_total (_calc_num toy toy_spec 10000 (-1)) 1 <= 1
  ∧ ∀ j, (_atomicnumber toy 1 ≤ j)%nat →
      _calc_num toy toy_spec 10000 (-1) j 1 = 0.
Proof.
  apply (C1_stage_total toy toy_spec 10000 (-1) 1).
  - lra.
  - toy_nat.
  - apply toy_helium_rates.
Defined.

(** ** C6: the mean ionization stage as [xi] grows *)

(** C6, as stated, fails: for helium (two valid stages) in the small
    instance at [temp = 10000], raising [xi] from 100 to 1000 lowers the
    mean stage taken over the rows of [num]. *)
Lemma C6_mean_stage_drops :
  (1 < _atomicnumber toy 1)%nat ∧ 0 < 10000 ∧ 0 < 100 < 1000 ∧
  ¬ (mean_stage (_calc_num toy toy_spec 10000 100) 1
     < mean_stage (_calc_num toy toy_spec 10000 1000) 1).
Proof.
  split; [toy_nat|]. split; [lra|]. split; [lra|].
  rewrite !toy_helium_mean by lra.
  pose proof toy_helium_weight_2 as Hw. revert Hw.
  generalize (exp (np.sum 2 (ratio toy toy_spec 10000 1))). intros w Hw.
  intros Hlt. apply Rlt_not_le in Hlt. apply Hlt. left.
  apply ratio_lt_cross; nra.
Qed.

(** C6, amended: for [temp > 0], an element with atomic number [Z] between
    1 and 26 and [0 < xi1 < xi2], the mean ionization stage that counts the
    fully stripped ion (stage [Z], population [stripped_fraction]) besides
    the rows of [num] is strictly larger at [xi2] than at [xi1]. *)
Theorem C6_mean_with_stripped_increasing (self : Absori) (spec : nat → R)
    (temp xi1 xi2 : R) (i : nat) :
  0 < temp →
  (1 ≤ _atomicnumber self i ≤ n_stage)%nat →
  0 < xi1 < xi2 →
  mean_stage (_calc_num self spec temp xi1) i
    + INR (_atomicnumber self i) * stripped_fraction self spec temp xi1 i
  < mean_stage (_calc_num self spec temp xi2) i
    + INR (_atomicnumber self i) * stripped_fraction self spec temp xi2 i.
Proof. intros _. apply mean_with_stripped_increasing. Qed.

Lemma C6_mean_with_stripped_increasing_witness :
  mean_stage (_calc_num toy toy_spec 10000 100) 1
    + INR (_atomicnumber toy 1) * stripped_fraction toy toy_spec 10000 100 1
  < mean_stage (_calc_num toy toy_spec 10000 1000) 1
    + INR (_atomicnumber toy 1) * stripped_fraction toy toy_spec 10000 1000 1.
Proof.
  apply (C6_mean_with_stripped_increasing toy toy_spec 10000 100 1000 1);
    [lra|toy_nat|lra].
Defined.

(** ** C9: the bin widths [deltaE] *)

(** C9, as stated, fails: on the grid 1, 2, ..., 721 the first entry of
    [deltaE] is the whole first interval, not the trapezoidal end weight
    (half of it). *)
Lemma C9_end_weight_differs :
  ¬ ∃ d, deltaE toy_energy = Ok d ∧
      ∀ i, (i < n_bin)%nat → nth i d 0 = trapezoid_weight toy_energy i.
Proof.
  intros (d & Hd & Hall).
  destruct (deltaE_spec toy_energy) as (d' & Hd' & _ & H0 & _).
  { rewrite toy_energy_length. unfold n_bin. lia. }
  rewrite Hd in Hd'. injection Hd' as <-.
  specialize (Hall 0%nat ltac:(unfold n_bin; lia)).
  rewrite H0 in Hall. unfold trapezoid_weight in Hall.
  rewrite toy_energy_length in Hall.
  rewrite decide_True in Hall by (unfold n_bin; lia).
  rewrite decide_False in Hall by lia.
  change (0 + 1)%nat with 1%nat in Hall.
  rewrite !toy_energy_nth in Hall by (unfold n_bin; lia).
  simpl in Hall. lra.
Qed.

(** C9, amended: [_setup], on a table whose atomic numbers are at most 26
    (so that its mask loop does not raise), computes [deltaE] once, from
    the energy grid alone; on a 721-point grid every interior entry is
    [(baseEnergy[i+1] - baseEnergy[i-1]) / 2], and the two end entries are
    the whole first and last intervals, [baseEnergy[1] - baseEnergy[0]] and
    [baseEnergy[720] - baseEnergy[719]]. *)
Theorem C9_setup_deltaE (d : sigma_data) (abundance : list R)
    (ion_spec : R → list R → list R → nat → R) (σ : store) :
  length (ld_energy d) = n_bin →
  (∀ i, (i < n_elem)%nat → (ld_atomicnumber d i ≤ n_stage)%nat) →
  ∃ self σ',
    _setup d abundance ion_spec σ = Ok (self, σ') ∧
    _base_energy self = ld_energy d ∧
    deltaE (ld_energy d) = Ok (_deltaE self) ∧
    length (_deltaE self) = n_bin ∧
    (∀ i, (1 ≤ i ≤ 719)%nat →
       nth i (_deltaE self) 0
       = (nth (i + 1) (ld_energy d) 0 - nth (i - 1) (ld_energy d) 0) / 2) ∧
    nth 0 (_deltaE self) 0 = nth 1 (ld_energy d) 0 - nth 0 (ld_energy d) 0 ∧
    nth 720 (_deltaE self) 0
    = nth 720 (ld_energy d) 0 - nth 719 (ld_energy d) 0.
Proof.
  intros Hlen Hz.
  destruct (deltaE_spec (ld_energy d)) as (dE & HdE & Hl & H0 & Hn & Hi).
  { rewrite Hlen. unfold n_bin. lia. }
  rewrite Hlen in *. change (n_bin - 1)%nat with 720%nat in Hn.
  change (n_bin - 2)%nat with 719%nat in Hn, Hi.
  rewrite (setup_run d abundance ion_spec σ dE Hz HdE).
  eexists _, _. split; [reflexivity|]. simpl. by split_and!.
Qed.

Lemma C9_setup_deltaE_witness :
  ∃ self σ',
    _setup {| ld_ion := _ion toy; ld_sigma := λ i j k, _sigma toy k j i;
              ld_atomicnumber := toy_atomicnumber; ld_energy := toy_energy |}
      (replicate n_elem 1) (calc_ion_spec_numba toy) ∅ = Ok (self, σ') ∧
    _base_energy self = toy_energy ∧
    deltaE toy_energy = Ok (_deltaE self) ∧
    length (_deltaE self) = n_bin ∧
    (∀ i, (1 ≤ i ≤ 719)%nat →
       nth i (_deltaE self) 0
       = (nth (i + 1) toy_energy 0 - nth (i - 1) toy_energy 0) / 2) ∧
    nth 0 (_deltaE self) 0 = nth 1 toy_energy 0 - nth 0 toy_energy 0 ∧
    nth 720 (_deltaE self) 0 = nth 720 toy_energy 0 - nth 719 toy_energy 0.
Proof.
  apply (C9_setup_deltaE
    {| ld_ion := _ion toy; ld_sigma := λ i j k, _sigma toy k j i;
       ld_atomicnumber := toy_atomicnumber; ld_energy := toy_energy |}).
  - apply toy_energy_length.
  - apply toy_atomicnumber_le.
Defined.

(** ** C4: the three regimes of the cross-section interpolator *)

(** C4: on a strictly increasing, positive 721-point grid, each sample
    [E = 1000 * ekev] falls in exactly one of three regimes: in range, the
    row is the linear interpolant of the table between two adjacent grid
    points that bracket [E]; above [baseEnergy[720]], it is the last
    tabulated row times [(E / baseEnergy[720]) ^ (-3)]; below
    [baseEnergy[0]], it is the first tabulated row. *)
Theorem C4_three_regimes (self : Absori) (ekev : list R) :
  length (_base_energy self) = n_bin →
  (∀ k, (S k < n_bin)%nat →
     nth k (_base_energy self) 0 < nth (S k) (_base_energy self) 0) →
  0 < nth 0 (_base_energy self) 0 →
  let b := _base_energy self in
  ∃ out,
    _interpolate_sigma self ekev = Ok out ∧ length out = length ekev ∧
    ∀ n ek sg, ekev !! n = Some ek → out !! n = Some sg →
      let E := 1000 * ek in
      (nth 0 b 0 <= E <= nth 720 b 0 ∨ E > nth 720 b 0 ∨ E < nth 0 b 0) ∧
      ¬ (E > nth 720 b 0 ∧ E < nth 0 b 0) ∧
      (nth 0 b 0 <= E <= nth 720 b 0 →
         ∃ k, (S k < n_bin)%nat ∧ nth k b 0 < nth (S k) b 0 ∧
           nth k b 0 <= E <= nth (S k) b 0 ∧
           ∀ j i, sg j i =
             _sigma self k j i
             + (_sigma self (S k) j i - _sigma self k j i)
               * ((E - nth k b 0) / (nth (S k) b 0 - nth k b 0))) ∧
      (E > nth 720 b 0 →
         Rpower (E / nth 720 b 0) (-3.0) = / (E / nth 720 b 0) ^ 3 ∧
         ∀ j i, sg j i = _sigma self 720 j i * Rpower (E / nth 720 b 0) (-3.0)) ∧
      (E < nth 0 b 0 → ∀ j i, sg j i = _sigma self 0 j i).
Proof.
  intros Hlen Hinc Hpos b. subst b.
  eexists. split; [by apply interpolate_sigma_run|].
  split; [by rewrite length_fmap|].
  intros n ek sg Hek Hsg E.
  rewrite list_lookup_fmap, Hek in Hsg. injection Hsg as <-.
  pose proof (first_le_last self Hlen Hinc) as Hfl.
  split_and!.
  - destruct (decide (E < nth 0 (_base_energy self) 0)); [by right; right|].
    destruct (decide (E > nth 720 (_base_energy self) 0)); [by right; left|].
    left. lra.
  - lra.
  - intros HE.
    destruct (interp_sigma_linear self Hlen Hinc E HE) as (k & Hk & Hlt & Hbr & Hv).
    exists k. do 3 (split; [done|]).
    intros j i. rewrite <- Hv. by apply sigma_row_in_range.
  - intros HE. split.
    + assert (0 < E / nth 720 (_base_energy self) 0)
        by (apply Rdiv_lt_0_compat; lra).
      replace (-3.0) with (- INR 3) by (simpl; lra).
      rewrite Rpower_Ropp, Rpower_pow by done. done.
    + intros j i. by apply sigma_row_above.
  - intros HE j i. by apply sigma_row_below.
Qed.

Lemma C4_three_regimes_witness :
  let b := _base_energy toy in
  ∃ out,
    _interpolate_sigma toy [0.0005; 0.3; 2] = Ok out ∧
    length out = length [0.0005; 0.3; 2] ∧
    ∀ n ek sg, [0.0005; 0.3; 2] !! n = Some ek → out !! n = Some sg →
      let E := 1000 * ek in
      (nth 0 b 0 <= E <= nth 720 b 0 ∨ E > nth 720 b 0 ∨ E < nth 0 b 0) ∧
      ¬ (E > nth 720 b 0 ∧ E < nth 0 b 0) ∧
      (nth 0 b 0 <= E <= nth 720 b 0 →
         ∃ k, (S k < n_bin)%nat ∧ nth k b 0 < nth (S k) b 0 ∧
           nth k b 0 <= E <= nth (S k) b 0 ∧
           ∀ j i, sg j i =
             _sigma toy k j i
             + (_sigma toy (S k) j i - _sigma toy k j i)
               * ((E - nth k b 0) / (nth (S k) b 0 - nth k b 0))) ∧
      (E > nth 720 b 0 →
         Rpower (E / nth 720 b 0) (-3.0) = / (E / nth 720 b 0) ^ 3 ∧
         ∀ j i, sg j i = _sigma toy 720 j i * Rpower (E / nth 720 b 0) (-3.0)) ∧
      (E < nth 0 b 0 → ∀ j i, sg j i = _sigma toy 0 j i).
Proof.
  apply (C4_three_regimes toy [0.0005; 0.3; 2]).
  - apply toy_energy_length.
  - apply toy_energy_increasing.
  - apply toy_energy_positive.
Defined.

(** ** C5: the grid boundaries *)

(** C5: on a strictly increasing, positive 721-point grid, a sample equal
    to [baseEnergy[0]] or to [baseEnergy[720]] gets exactly the tabulated
    row of that grid point; at [baseEnergy[720]] the power-law factor is 1,
    so the tail formula agrees with the in-range interpolation there. *)
Theorem C5_boundaries (self : Absori) (ekev : R) :
  length (_base_energy self) = n_bin →
  (∀ k, (S k < n_bin)%nat →
     nth k (_base_energy self) 0 < nth (S k) (_base_energy self) 0) →
  0 < nth 0 (_base_energy self) 0 →
  let b := _base_energy self in
  ∃ sg,
    _interpolate_sigma self [ekev] = Ok [sg] ∧
    (1000 * ekev = nth 0 b 0 → ∀ j i, sg j i = _sigma self 0 j i) ∧
    (1000 * ekev = nth 720 b 0 → ∀ j i, sg j i = _sigma self 720 j i) ∧
    Rpower (nth 720 b 0 / nth 720 b 0) (-3.0) = 1 ∧
    ∀ j i, _sigma self 720 j i * Rpower (nth 720 b 0 / nth 720 b 0) (-3.0)
           = _interp_sigma self (nth 720 b 0) j i.
Proof.
  intros Hlen Hinc Hpos b. subst b.
  eexists. split; [rewrite interpolate_sigma_run by done; reflexivity|].
  pose proof (first_le_last self Hlen Hinc) as Hfl.
  assert (Hone : Rpower (nth 720 (_base_energy self) 0
                         / nth 720 (_base_energy self) 0) (-3.0) = 1).
  { unfold Rdiv. rewrite Rinv_r by lra.
    unfold Rpower. rewrite ln_1, Rmult_0_r. apply exp_0. }
  split_and!.
  - intros -> j i. rewrite sigma_row_in_range by lra.
    by apply interp_sigma_first.
  - intros -> j i. rewrite sigma_row_in_range by lra.
    by apply interp_sigma_last.
  - done.
  - intros j i. rewrite Hone, Rmult_1_r. symmetry. by apply interp_sigma_last.
Qed.

Lemma C5_boundaries_witness :
  let b := _base_energy toy in
  ∃ sg,
    _interpolate_sigma toy [0.721] = Ok [sg] ∧
    (1000 * 0.721 = nth 0 b 0 → ∀ j i, sg j i = _sigma toy 0 j i) ∧
    (1000 * 0.721 = nth 720 b 0 → ∀ j i, sg j i = _sigma toy 720 j i) ∧
    Rpower (nth 720 b 0 / nth 720 b 0) (-3.0) = 1 ∧
    ∀ j i, _sigma toy 720 j i * Rpower (nth 720 b 0 / nth 720 b 0) (-3.0)
           = _interp_sigma toy (nth 720 b 0) j i.
Proof.
  apply (C5_boundaries toy 0.721).
  - apply toy_energy_length.
  - apply toy_energy_increasing.
  - apply toy_energy_positive.
Defined.

(** ** C7: the transmission *)

(** C7, as stated, fails: through a thick column [np.exp] underflows and
    the transmission is exactly 0, outside (0, 1].  In the small instance
    at [temp = 10000], [xi = 1], [gamma = 0] and [NH = 1e8] the neutral
    hydrogen alone gives [NH * opacity > 1075]. *)
Lemma C7_transmission_underflows :
  ∃ σ', evaluate_binary64 toy [0.3] 1e8 0 10000 1 0 0 0 toy_store
        = Ok ([0], σ')
        ∧ ¬ Forall (λ t, 0 < t <= 1) [0].
Proof.
  destruct toy_thick_column as [σ' H]. exists σ'. split; [done|].
  intros Hall. apply Forall_cons in Hall as [[Hpos _] _]. lra.
Qed.

(** C7, amended: with a strictly increasing 721-point grid, nonnegative
    tabulated cross-sections and ten nonnegative stored abundances,
    [evaluate] on positive energies with [NH >= 0] and [temp > 0] returns
    one transmission per energy, each in the closed interval [0, 1]; this
    holds with the underflow of [np.exp] and without it. *)
Theorem C7_transmission_range (self : Absori) (σ : store) (a x : list R)
    (NH redshift temp xi gamma abundance fe_abundance : R) :
  length (_base_energy self) = n_bin →
  (∀ k, (S k < n_bin)%nat →
     nth k (_base_energy self) 0 < nth (S k) (_base_energy self) 0) →
  (∀ k j i, 0 <= _sigma self k j i) →
  σ !! _abundance self = Some a → length a = n_elem →
  Forall (λ v, 0 <= v) a →
  Forall (λ v, 0 < v) x → 0 <= NH → 0 < temp →
  ∃ out out64 σ',
    evaluate self x NH redshift temp xi gamma abundance fe_abundance σ
      = Ok (out, σ') ∧
    evaluate_binary64 self x NH redshift temp xi gamma abundance
      fe_abundance σ = Ok (out64, σ') ∧
    length out = length x ∧ length out64 = length x ∧
    Forall (λ t, 0 <= t <= 1) out ∧
    Forall (λ t, 0 <= t <= 1) out64.
Proof.
  intros Hlen Hinc Hsig Hab Halen Hnonneg _ HNH _.
  eexists _, _, _. split; [by apply evaluate_run|].
  split; [by apply evaluate_binary64_run|].
  split; [by rewrite length_fmap|]. split; [by rewrite length_fmap|].
  assert (Hop : ∀ v, 0 <= NH * (sum_stage_elem (λ j i,
              _calc_num self (_calc_ion_spec self gamma) temp xi j i
              * nth i (adjusted a abundance fe_abundance) 0
              * sigma_row self (nth 0 (_base_energy self) 0)
                  (nth 720 (_base_energy self) 0)
                  (1000 * (v * (1 + redshift))) j i) * 6.6e-5)).
  { intros v. apply Rmult_le_pos; [done|]. apply Rmult_le_pos; [|lra].
    apply sum_stage_elem_nonneg. intros j i.
    apply Rmult_le_pos; [apply Rmult_le_pos|].
    - apply num_nonneg.
    - by apply adjusted_nonneg.
    - by apply sigma_row_nonneg. }
  split; apply Forall_fmap, Forall_forall; intros v _; simpl;
    rewrite Ropp_mult_distr_l_reverse.
  - pose proof (exp_neg_unit _ (Hop v)). lra.
  - apply exp_binary64_unit, Hop.
Qed.

Lemma C7_transmission_range_witness :
  ∃ out out64 σ',
    evaluate toy [0.0005; 0.3; 2] 1 0 10000 1 2 0 0 toy_store = Ok (out, σ') ∧
    evaluate_binary64 toy [0.0005; 0.3; 2] 1 0 10000 1 2 0 0 toy_store
      = Ok (out64, σ') ∧
    length out = length [0.0005; 0.3; 2] ∧
    length out64 = length [0.0005; 0.3; 2] ∧
    Forall (λ t, 0 <= t <= 1) out ∧
    Forall (λ t, 0 <= t <= 1) out64.
Proof.
  apply (C7_transmission_range toy toy_store (replicate n_elem 1)
           [0.0005; 0.3; 2] 1 0 10000 1 2 0 0).
  - apply toy_energy_length.
  - apply toy_energy_increasing.
  - apply toy_sigma_nonneg.
  - apply toy_store_abundance.
  - reflexivity.
  - apply toy_abundance_nonneg.
  - repeat constructor; lra.
  - lra.
  - lra.
Defined.

(** ** C8: the abundance offsets *)

(** C8: [evaluate] adjusts a fresh copy of the stored abundances and uses
    that copy as the weights: entries 2..8 (C N O Ne Mg Si S) times
    [10 ^ abundance], entry 9 (Fe) times [10 ^ fe_abundance], entries 0 and
    1 (H, He) as stored; the stored array is the same after the call. *)
Theorem C8_abundance_copy (self : Absori) (σ : store) (a x : list R)
    (NH redshift temp xi gamma abundance fe_abundance : R) :
  length (_base_energy self) = n_bin →
  σ !! _abundance self = Some a → length a = n_elem →
  ∃ ab r σ1 out,
    adjusted_abundance self abundance fe_abundance σ = Ok (r, σ1) ∧
    r ≠ _abundance self ∧ σ !! r = None ∧
    σ1 !! r = Some ab ∧ σ1 !! _abundance self = Some a ∧
    length ab = n_elem ∧
    (∀ i, (i < 2)%nat → nth i ab 0 = nth i a 0) ∧
    (∀ i, (2 ≤ i ≤ 8)%nat → nth i ab 0 = nth i a 0 * Rpower 10 abundance) ∧
    nth 9 ab 0 = nth 9 a 0 * Rpower 10 fe_abundance ∧
    evaluate self x NH redshift temp xi gamma abundance fe_abundance σ
      = Ok (out, σ1) ∧
    out = (λ v, exp (- NH * (sum_stage_elem (λ j i,
              _calc_num self (_calc_ion_spec self gamma) temp xi j i
              * nth i ab 0
              * sigma_row self (nth 0 (_base_energy self) 0)
                  (nth 720 (_base_energy self) 0)
                  (1000 * (v * (1 + redshift))) j i) * 6.6e-5))) <$> x ∧
    ∃ σ2,
      evaluate self x NH redshift temp xi gamma abundance fe_abundance σ1
        = Ok (out, σ2) ∧
      σ2 !! _abundance self = Some a.
Proof.
  intros Hlen Hab Halen.
  destruct (adjusted_entries a abundance fe_abundance Halen) as (H01 & H28 & H9).
  pose proof (fresh_not_stored σ _ a Hab) as Hfresh.
  exists (adjusted a abundance fe_abundance), (fresh (dom σ)),
    (<[fresh (dom σ) := adjusted a abundance fe_abundance]> σ).
  eexists. split_and!; try done.
  - apply adjusted_abundance_run; [done|]. rewrite Halen. unfold n_elem. lia.
  - apply not_elem_of_dom, is_fresh.
  - apply lookup_insert_eq.
  - by rewrite lookup_insert_ne.
  - by rewrite adjusted_length.
  - by apply evaluate_run.
  - assert (Hab1 : <[fresh (dom σ) := adjusted a abundance fe_abundance]> σ
                     !! _abundance self = Some a)
      by (by rewrite lookup_insert_ne).
    eexists. split; [by apply evaluate_run|].
    rewrite lookup_insert_ne; [done|]. by apply fresh_not_stored with a.
Qed.

Lemma C8_abundance_copy_witness :
  ∃ ab r σ1 out,
    adjusted_abundance toy 0.5 (-0.5) toy_store = Ok (r, σ1) ∧
    r ≠ _abundance toy ∧ toy_store !! r = None ∧
    σ1 !! r = Some ab ∧ σ1 !! _abundance toy = Some (replicate n_elem 1) ∧
    length ab = n_elem ∧
    (∀ i, (i < 2)%nat → nth i ab 0 = nth i (replicate n_elem 1) 0) ∧
    (∀ i, (2 ≤ i ≤ 8)%nat →
       nth i ab 0 = nth i (replicate n_elem 1) 0 * Rpower 10 0.5) ∧
    nth 9 ab 0 = nth 9 (replicate n_elem 1) 0 * Rpower 10 (-0.5) ∧
    evaluate toy [0.3] 1 0 10000 1 2 0.5 (-0.5) toy_store = Ok (out, σ1) ∧
    out = (λ v, exp (- 1 * (sum_stage_elem (λ j i,
              _calc_num toy (_calc_ion_spec toy 2) 10000 1 j i
              * nth i ab 0
              * sigma_row toy (nth 0 (_base_energy toy) 0)
                  (nth 720 (_base_energy toy) 0)
                  (1000 * (v * (1 + 0))) j i) * 6.6e-5))) <$> [0.3] ∧
    ∃ σ2,
      evaluate toy [0.3] 1 0 10000 1 2 0.5 (-0.5) σ1 = Ok (out, σ2) ∧
      σ2 !! _abundance toy = Some (replicate n_elem 1).
Proof.
  apply (C8_abundance_copy toy toy_store (replicate n_elem 1) [0.3]
           1 0 10000 1 2 0.5 (-0.5)).
  - apply toy_energy_length.
  - apply toy_store_abundance.
  - reflexivity.
Defined.

(** ** C10: the redshift only rescales the energies *)

(** C10: [evaluate] at energies [x] and redshift [z] is [evaluate] at
    energies [x * (1 + z)] and redshift 0, result and store alike. *)
Theorem C10_redshift_rescales (self : Absori) (σ : store) (x : list R)
    (NH z temp xi gamma abundance fe_abundance : R) :
  evaluate self x NH z temp xi gamma abundance fe_abundance σ
  = evaluate self ((λ v, v * (1 + z)) <$> x) NH 0 temp xi gamma
      abundance fe_abundance σ.
Proof.
  unfold evaluate. do 2 f_equal.
  rewrite <- list_fmap_compose. apply list_fmap_ext.
  intros _ v _. simpl. ring.
Qed.

(** ** C2, C3: [Integrate_Absori.evaluate] without a shell *)

(** C2 does not hold of the code: for a source redshift below 0.02 the
    shell count [nz] is 0 and [zsam = redshift / nz] raises
    [ZeroDivisionError] before any transmission is computed. *)
Theorem C2_no_shell_raises (self : Absori) (σ : store) (x : list R)
    (n0 delta redshift temp xi gamma abundance fe_abundance : R) :
  0 <= redshift < 0.02 →
  Integrate_Absori.evaluate self x n0 delta redshift temp xi gamma
    abundance fe_abundance σ = Raise ZeroDivisionError.
Proof. intros H. apply integrate_evaluate_no_shell. lra. Qed.

Lemma C2_no_shell_raises_witness :
  Integrate_Absori.evaluate toy [0.3] 0.0001 0 0.01 10000 1 2 0 0 toy_store
  = Raise ZeroDivisionError.
Proof.
  apply (C2_no_shell_raises toy toy_store [0.3] 0.0001 0 0.01 10000 1 2 0 0).
  lra.
Defined.

(** C3 does not hold of the code at redshift 0 (the declared initial
    value): with [n0 = 0] the call raises [ZeroDivisionError] instead of
    returning 1. *)
Theorem C3_empty_medium_at_redshift_0 :
  Integrate_Absori.evaluate toy [0.3] 0 0 0 10000 1 2 0 0 toy_store
  = Raise ZeroDivisionError.
Proof. apply integrate_evaluate_no_shell. lra. Qed.

(** Once there is at least one shell ([redshift >= 0.02]) an empty medium
    is transparent: every transmission is exactly 1. *)
Lemma empty_medium_transparent (self : Absori) (σ : store) (a x : list R)
    (delta redshift temp xi gamma abundance fe_abundance : R) :
  length (_base_energy self) = n_bin →
  σ !! _abundance self = Some a → length a = n_elem →
  0.02 <= redshift →
  ∃ σ',
    Integrate_Absori.evaluate self x 0 delta redshift temp xi gamma
      abundance fe_abundance σ = Ok (replicate (length x) 1, σ').
Proof.
  intros. eexists. by apply integrate_evaluate_empty_medium.
Qed.

(** * Properties beyond the claims *)

(** ** [Absori.evaluate] and the column density *)

(** X1: with [NH = 0] every transmission is exactly 1. *)
Theorem X1_no_column_transparent (self : Absori) (σ : store) (a x : list R)
    (redshift temp xi gamma abundance fe_abundance : R) :
  length (_base_energy self) = n_bin →
  σ !! _abundance self = Some a → length a = n_elem →
  ∃ σ', evaluate self x 0 redshift temp xi gamma abundance fe_abundance σ
        = Ok (replicate (length x) 1, σ').
Proof. intros. by eapply evaluate_no_column. Qed.

Lemma X1_no_column_transparent_witness :
  ∃ σ', evaluate toy [0.0005; 0.3; 2] 0 0.5 10000 1 2 0 0 toy_store
        = Ok (replicate (length [0.0005; 0.3; 2]) 1, σ').
Proof.
  apply (X1_no_column_transparent toy toy_store (replicate n_elem 1)).
  - apply toy_energy_length.
  - apply toy_store_abundance.
  - reflexivity.
Defined.

(** X2: column densities add as transmissions multiply: the result for
    [NH1 + NH2] is the elementwise product of the results for [NH1] and
    [NH2]. *)
Theorem X2_columns_multiply (self : Absori) (σ : store) (a x : list R)
    (NH1 NH2 redshift temp xi gamma abundance fe_abundance : R) :
  length (_base_energy self) = n_bin →
  σ !! _abundance self = Some a → length a = n_elem →
  ∃ out1 out2 σ',
    evaluate self x NH1 redshift temp xi gamma abundance fe_abundance σ
      = Ok (out1, σ') ∧
    evaluate self x NH2 redshift temp xi gamma abundance fe_abundance σ
      = Ok (out2, σ') ∧
    evaluate self x (NH1 + NH2) redshift temp xi gamma abundance
      fe_abundance σ = Ok (zip_with Rmult out1 out2, σ').
Proof. intros. by eapply evaluate_columns_add. Qed.

Lemma X2_columns_multiply_witness :
  ∃ out1 out2 σ',
    evaluate toy [0.3; 2] 1 0 10000 1 2 0 0 toy_store = Ok (out1, σ') ∧
    evaluate toy [0.3; 2] 2.5 0 10000 1 2 0 0 toy_store = Ok (out2, σ') ∧
    evaluate toy [0.3; 2] (1 + 2.5) 0 10000 1 2 0 0 toy_store
      = Ok (zip_with Rmult out1 out2, σ').
Proof.
  apply (X2_columns_multiply toy toy_store (replicate n_elem 1)).
  - apply toy_energy_length.
  - apply toy_store_abundance.
  - reflexivity.
Defined.

(** X3: with nonnegative tables, a larger column density never gives a
    larger transmission, at any energy. *)
Theorem X3_more_column_less_transmission (self : Absori) (σ : store)
    (a x : list R)
    (NH1 NH2 redshift temp xi gamma abundance fe_abundance : R) :
  length (_base_energy self) = n_bin →
  (∀ k, (S k < n_bin)%nat →
     nth k (_base_energy self) 0 < nth (S k) (_base_energy self) 0) →
  (∀ k j i, 0 <= _sigma self k j i) →
  σ !! _abundance self = Some a → length a = n_elem →
  Forall (λ v, 0 <= v) a →
  NH1 <= NH2 →
  ∃ out1 out2 σ',
    evaluate self x NH1 redshift temp xi gamma abundance fe_abundance σ
      = Ok (out1, σ') ∧
    evaluate self x NH2 redshift temp xi gamma abundance fe_abundance σ
      = Ok (out2, σ') ∧
    Forall2 Rle out2 out1.
Proof. intros. by eapply evaluate_column_antitone. Qed.

Lemma X3_more_column_less_transmission_witness :
  ∃ out1 out2 σ',
    evaluate toy [0.3; 2] 1 0 10000 1 2 0 0 toy_store = Ok (out1, σ') ∧
    evaluate toy [0.3; 2] 2.5 0 10000 1 2 0 0 toy_store = Ok (out2, σ') ∧
    Forall2 Rle out2 out1.
Proof.
  apply (X3_more_column_less_transmission toy toy_store (replicate n_elem 1)).
  - apply toy_energy_length.
  - apply toy_energy_increasing.
  - apply toy_sigma_nonneg.
  - apply toy_store_abundance.
  - reflexivity.
  - apply toy_abundance_nonneg.
  - lra.
Defined.

(** ** [_calc_num] *)

(** X4: the subtraction of the row maximum [mult] changes nothing: for
    [temp > 0] and an element whose valid stages have positive rates,
    every valid entry of [num] is the direct-space weight
    [exp(ratio[0] + ... + ratio[j-1] + j xil)] over the sum of these
    weights for the stages 0 .. Z. *)
Theorem X4_populations_direct_form (self : Absori) (spec : nat → R)
    (temp xi : R) (i j : nat) :
  0 < temp →
  (1 ≤ _atomicnumber self i ≤ n_stage)%nat →
  (∀ k, (k < _atomicnumber self i)%nat →
     0 < arec self temp i k ∧ 0 < intgral self spec i k) →
  (j < _atomicnumber self i)%nat →
  _calc_num self spec temp xi j i =
  exp (np.sum j (ratio self spec temp i) + INR j * xil xi)
  / np.sum (S (_atomicnumber self i))
      (λ m, exp (np.sum m (ratio self spec temp i) + INR m * xil xi)).
Proof.
  intros _ HZ _ Hj. rewrite num_direct by done. rewrite exp_affine. f_equal.
  apply sum_ext. intros m _. by rewrite exp_affine.
Qed.

Lemma X4_populations_direct_form_witness :
  _calc_num toy toy_spec 10000 100 1 1 =
  exp (np.sum 1 (ratio toy toy_spec 10000 1) + INR 1 * xil 100)
  / np.sum (S (_atomicnumber toy 1))
      (λ m, exp (np.sum m (ratio toy toy_spec 10000 1) + INR m * xil 100)).
Proof.
  apply (X4_populations_direct_form toy toy_spec 10000 100 1 1).
  - lra.
  - toy_nat.
  - apply toy_helium_rates.
  - toy_nat.
Defined.

(** X5: for [temp > 0], any [xi] and an element whose valid stages have
    positive rates, every entry of [num], at a valid stage or not, is a
    population between 0 and 1. *)
Theorem X5_populations_in_unit_interval (self : Absori) (spec : nat → R)
    (temp xi : R) (i j : nat) :
  0 < temp →
  (1 ≤ _atomicnumber self i ≤ n_stage)%nat →
  (∀ k, (k < _atomicnumber self i)%nat →
     0 < arec self temp i k ∧ 0 < intgral self spec i k) →
  0 <= _calc_num self spec temp xi j i <= 1.
Proof.
  intros _ HZ _.
  destruct (decide (j < _atomicnumber self i)%nat) as [Hj|Hj].
  - pose proof (num_strictly_inside self spec temp i HZ xi j Hj). lra.
  - rewrite num_invalid by (done || lia). lra.
Qed.

Lemma X5_populations_in_unit_interval_witness :
  0 <= _calc_num toy toy_spec 10000 0 1 1 <= 1.
Proof.
  apply (X5_populations_in_unit_interval toy toy_spec 10000 0 1 1).
  - lra.
  - toy_nat.
  - apply toy_helium_rates.
Defined.

(** X6: neighbouring valid stages are in ionization balance: for
    [temp > 0], [xi > 0] and positive rates, the population of stage
    [j + 1] is that of stage [j] times [xi * 3.2749e-6 * intgral / arec]. *)
Theorem X6_adjacent_stage_balance (self : Absori) (spec : nat → R)
    (temp xi : R) (i j : nat) :
  0 < temp →
  (1 ≤ _atomicnumber self i ≤ n_stage)%nat →
  (∀ k, (k < _atomicnumber self i)%nat →
     0 < arec self temp i k ∧ 0 < intgral self spec i k) →
  (S j < _atomicnumber self i)%nat →
  0 < xi →
  _calc_num self spec temp xi (S j) i =
  _calc_num self spec temp xi j i
  * (3.2749e-6 * intgral self spec i j / arec self temp i j) * xi.
Proof.
  intros _ HZ Hrates Hj Hxi.
  destruct (Hrates j ltac:(lia)) as [Ha Hi].
  rewrite num_step by done.
  rewrite exp_plus, Rmult_assoc. f_equal. f_equal.
  - unfold ratio. rewrite decide_False by lra. apply exp_ln.
    apply Rdiv_lt_0_compat; [nra|done].
  - unfold xil. rewrite decide_False by lra. by apply exp_ln.
Qed.

Lemma X6_adjacent_stage_balance_witness :
  _calc_num toy toy_spec 10000 100 1 1 =
  _calc_num toy toy_spec 10000 100 0 1
  * (3.2749e-6 * intgral toy toy_spec 1 0 / arec toy 10000 1 0) * 100.
Proof.
  apply (X6_adjacent_stage_balance toy toy_spec 10000 100 1 0).
  - lra.
  - toy_nat.
  - apply toy_helium_rates.
  - toy_nat.
  - lra.
Defined.

(** X7: for [temp > 0] and an element whose valid stages have positive
    rates, the neutral fraction [num[0]] strictly decreases as [xi]
    grows. *)
Theorem X7_neutral_fraction_decreasing (self : Absori) (spec : nat → R)
    (temp xi1 xi2 : R) (i : nat) :
  0 < temp →
  (1 ≤ _atomicnumber self i ≤ n_stage)%nat →
  (∀ k, (k < _atomicnumber self i)%nat →
     0 < arec self temp i k ∧ 0 < intgral self spec i k) →
  0 < xi1 < xi2 →
  _calc_num self spec temp xi2 0 i < _calc_num self spec temp xi1 0 i.
Proof. intros _ HZ _. by apply neutral_decreasing. Qed.

Lemma X7_neutral_fraction_decreasing_witness :
  _calc_num toy toy_spec 10000 1000 0 1 < _calc_num toy toy_spec 10000 100 0 1.
Proof.
  apply (X7_neutral_fraction_decreasing toy toy_spec 10000 100 1000 1).
  - lra.
  - toy_nat.
  - apply toy_helium_rates.
  - lra.
Defined.

(** X8: every [xi <= 0] gives the matrix of [xi = exp(-100)]: zero and
    negative ionization parameters are not told apart. *)
Theorem X8_nonpositive_xi (self : Absori) (spec : nat → R)
    (temp xi : R) (i j : nat) :
  xi <= 0 →
  _calc_num self spec temp xi j i
  = _calc_num self spec temp (exp (-100)) j i.
Proof. intros Hxi. apply calc_num_xil. by apply xil_nonpositive. Qed.

Lemma X8_nonpositive_xi_witness :
  _calc_num toy toy_spec 10000 (-3) 0 1
  = _calc_num toy toy_spec 10000 (exp (-100)) 0 1.
Proof. apply (X8_nonpositive_xi toy toy_spec 10000 (-3) 1 0). lra. Defined.

(** X9: for [temp > 0] and an element whose valid stages have positive
    rates, scaling the ionizing spectrum by [c > 0] is the same as scaling
    [xi > 0] by [c]. *)
Theorem X9_spectrum_scale_is_xi_scale (self : Absori) (spec : nat → R)
    (temp xi c : R) (i j : nat) :
  0 < temp →
  (1 ≤ _atomicnumber self i ≤ n_stage)%nat →
  (∀ k, (k < _atomicnumber self i)%nat →
     0 < arec self temp i k ∧ 0 < intgral self spec i k) →
  0 < c → 0 < xi →
  _calc_num self (λ k, c * spec k) temp xi j i
  = _calc_num self spec temp (c * xi) j i.
Proof. intros _. apply spectrum_scale. Qed.

Lemma X9_spectrum_scale_is_xi_scale_witness :
  _calc_num toy (λ k, 3 * toy_spec k) 10000 100 1 1
  = _calc_num toy toy_spec 10000 (3 * 100) 1 1.
Proof.
  apply (X9_spectrum_scale_is_xi_scale toy toy_spec 10000 100 3 1 1).
  - lra.
  - toy_nat.
  - apply toy_helium_rates.
  - lra.
  - lra.
Defined.

(** ** [_interpolate_sigma] *)

(** X10: a sample that equals any grid energy [baseEnergy[k]] gets
    exactly the tabulated row [sigma[k]]. *)
Theorem X10_interpolation_hits_grid_points (self : Absori) (ekev : R)
    (k : nat) :
  length (_base_energy self) = n_bin →
  (∀ m, (S m < n_bin)%nat →
     nth m (_base_energy self) 0 < nth (S m) (_base_energy self) 0) →
  (k < n_bin)%nat →
  1000 * ekev = nth k (_base_energy self) 0 →
  ∃ sg, _interpolate_sigma self [ekev] = Ok [sg] ∧
        ∀ j i, sg j i = _sigma self k j i.
Proof.
  intros Hlen Hinc Hk He.
  eexists. split; [rewrite interpolate_sigma_run by done; reflexivity|].
  intros j i. rewrite He.
  rewrite sigma_row_in_range by (by apply grid_point_in_range).
  by apply interp_sigma_grid_point.
Qed.

Lemma X10_interpolation_hits_grid_points_witness :
  ∃ sg, _interpolate_sigma toy [0.3] = Ok [sg] ∧
        ∀ j i, sg j i = _sigma toy 299 j i.
Proof.
  apply (X10_interpolation_hits_grid_points toy 0.3 299).
  - apply toy_energy_length.
  - apply toy_energy_increasing.
  - unfold n_bin. lia.
  - rewrite toy_energy_nth by (unfold n_bin; lia).
    rewrite INR_IZR_INZ. change (Z.of_nat 300) with 300%Z. lra.
Defined.

(** X11: an in-range sample gets, for every stage and element, a value
    between the two tabulated values at the grid points that bracket
    it. *)
Theorem X11_interpolation_between_neighbours (self : Absori) (ekev : R) :
  length (_base_energy self) = n_bin →
  (∀ m, (S m < n_bin)%nat →
     nth m (_base_energy self) 0 < nth (S m) (_base_energy self) 0) →
  nth 0 (_base_energy self) 0 <= 1000 * ekev
    <= nth 720 (_base_energy self) 0 →
  ∃ sg k,
    _interpolate_sigma self [ekev] = Ok [sg] ∧ (S k < n_bin)%nat ∧
    nth k (_base_energy self) 0 <= 1000 * ekev
      <= nth (S k) (_base_energy self) 0 ∧
    ∀ j i,
      Rmin (_sigma self k j i) (_sigma self (S k) j i) <= sg j i
      <= Rmax (_sigma self k j i) (_sigma self (S k) j i).
Proof.
  intros Hlen Hinc He.
  destruct (interp_sigma_between self Hlen Hinc _ He) as (k & Hk & Hbr & Hv).
  eexists _, k.
  split; [rewrite interpolate_sigma_run by done; reflexivity|].
  split; [done|]. split; [done|]. intros j i.
  rewrite sigma_row_in_range by done. apply Hv.
Qed.

Lemma X11_interpolation_between_neighbours_witness :
  ∃ sg k,
    _interpolate_sigma toy [0.3005] = Ok [sg] ∧ (S k < n_bin)%nat ∧
    nth k (_base_energy toy) 0 <= 1000 * 0.3005
      <= nth (S k) (_base_energy toy) 0 ∧
    ∀ j i,
      Rmin (_sigma toy k j i) (_sigma toy (S k) j i) <= sg j i
      <= Rmax (_sigma toy k j i) (_sigma toy (S k) j i).
Proof.
  apply (X11_interpolation_between_neighbours toy 0.3005).
  - apply toy_energy_length.
  - apply toy_energy_increasing.
  - change (_base_energy toy) with toy_energy.
    rewrite !toy_energy_nth by (unfold n_bin; lia).
    rewrite !INR_IZR_INZ. change (Z.of_nat 1) with 1%Z.
    change (Z.of_nat 721) with 721%Z. lra.
Defined.

(** X12: above the grid, with nonnegative tabulated values, the
    extrapolated value never exceeds the last tabulated one and never
    grows with energy. *)
Theorem X12_tail_decreasing (self : Absori) (ekev1 ekev2 : R) :
  length (_base_energy self) = n_bin →
  (∀ m, (S m < n_bin)%nat →
     nth m (_base_energy self) 0 < nth (S m) (_base_energy self) 0) →
  0 < nth 0 (_base_energy self) 0 →
  (∀ k j i, 0 <= _sigma self k j i) →
  nth 720 (_base_energy self) 0 < 1000 * ekev1 → ekev1 < ekev2 →
  ∃ sg1 sg2,
    _interpolate_sigma self [ekev1; ekev2] = Ok [sg1; sg2] ∧
    ∀ j i, 0 <= sg2 j i <= sg1 j i ∧ sg1 j i <= _sigma self 720 j i.
Proof.
  intros Hlen Hinc Hpos Hsig H1 H2.
  eexists _, _.
  split; [rewrite interpolate_sigma_run by done; reflexivity|].
  intros j i. rewrite !sigma_row_above by (done || lra).
  pose proof (first_le_last self Hlen Hinc) as Hfl.
  set (b := nth 720 (_base_energy self) 0) in *.
  destruct (tail_factor (1000 * ekev1 / b) (1000 * ekev2 / b))
    as [[Hp Hlt] Hone].
  { split.
    - apply Rmult_lt_reg_r with b; [lra|].
      unfold Rdiv. rewrite Rmult_assoc, Rinv_l by lra. lra.
    - unfold Rdiv. apply Rmult_lt_compat_r; [|lra].
      apply Rinv_0_lt_compat. lra. }
  pose proof (Hsig 720%nat j i). split; [split|]; nra.
Qed.

Lemma X12_tail_decreasing_witness :
  ∃ sg1 sg2,
    _interpolate_sigma toy [1; 2] = Ok [sg1; sg2] ∧
    ∀ j i, 0 <= sg2 j i <= sg1 j i ∧ sg1 j i <= _sigma toy 720 j i.
Proof.
  apply (X12_tail_decreasing toy 1 2).
  - apply toy_energy_length.
  - apply toy_energy_increasing.
  - apply toy_energy_positive.
  - apply toy_sigma_nonneg.
  - change (_base_energy toy) with toy_energy.
    rewrite toy_energy_nth by (unfold n_bin; lia).
    rewrite INR_IZR_INZ. change (Z.of_nat 721) with 721%Z. lra.
  - lra.
Defined.

(** ** [_setup] *)

(** X13: on a strictly increasing grid every bin width is positive. *)
Theorem X13_deltaE_positive (b : list R) :
  (2 ≤ length b)%nat →
  (∀ k, (S k < length b)%nat → nth k b 0 < nth (S k) b 0) →
  ∃ w, deltaE b = Ok w ∧ length w = length b ∧
    ∀ i, (i < length b)%nat → 0 < nth i w 0.
Proof. apply deltaE_positive. Qed.

Lemma X13_deltaE_positive_witness :
  ∃ w, deltaE toy_energy = Ok w ∧ length w = length toy_energy ∧
    ∀ i, (i < length toy_energy)%nat → 0 < nth i w 0.
Proof.
  apply (X13_deltaE_positive toy_energy).
  - rewrite toy_energy_length. unfold n_bin. lia.
  - rewrite toy_energy_length. apply toy_energy_increasing.
Defined.

(** X14: [_setup] followed by [evaluate], for a table with a 721-point
    grid whose atomic numbers are at most 26 and reach 26, and ten
    abundances: [_setup] succeeds with [_max_atomicnumber = 26], puts the
    abundances into a new array and leaves every array that existed
    untouched; [evaluate] on the object then succeeds on any energies and
    parameters, returns one value per energy and leaves the abundances as
    loaded. *)
Theorem X14_setup_then_evaluate (d : sigma_data) (abundance : list R)
    (ion_spec : R → list R → list R → nat → R) (σ : store) (x : list R)
    (NH redshift temp xi gamma ab_offset fe_offset : R) :
  length (ld_energy d) = n_bin → length abundance = n_elem →
  (∀ i, (i < n_elem)%nat → (ld_atomicnumber d i ≤ n_stage)%nat) →
  (∃ i, (i < n_elem)%nat ∧ ld_atomicnumber d i = n_stage) →
  ∃ self σ1 out σ2,
    _setup d abundance ion_spec σ = Ok (self, σ1) ∧
    _max_atomicnumber self = n_stage ∧
    σ !! _abundance self = None ∧
    σ1 = <[_abundance self := abundance]> σ ∧
    evaluate self x NH redshift temp xi gamma ab_offset fe_offset σ1
      = Ok (out, σ2) ∧
    length out = length x ∧
    σ2 !! _abundance self = Some abundance.
Proof. apply setup_then_evaluate. Qed.

Lemma X14_setup_then_evaluate_witness :
  ∃ self σ1 out σ2,
    _setup {| ld_ion := _ion toy; ld_sigma := λ i j k, _sigma toy k j i;
              ld_atomicnumber := toy_atomicnumber; ld_energy := toy_energy |}
      (replicate n_elem 1) (calc_ion_spec_numba toy) toy_store
      = Ok (self, σ1) ∧
    _max_atomicnumber self = n_stage ∧
    toy_store !! _abundance self = None ∧
    σ1 = <[_abundance self := replicate n_elem 1]> toy_store ∧
    evaluate self [0.3; 2] 1 0 10000 1 2 0 0 σ1 = Ok (out, σ2) ∧
    length out = length [0.3; 2] ∧
    σ2 !! _abundance self = Some (replicate n_elem 1).
Proof.
  apply (X14_setup_then_evaluate
    {| ld_ion := _ion toy; ld_sigma := λ i j k, _sigma toy k j i;
       ld_atomicnumber := toy_atomicnumber; ld_energy := toy_energy |}).
  - apply toy_energy_length.
  - reflexivity.
  - apply toy_atomicnumber_le.
  - exists 9%nat. split; [unfold n_elem; lia|reflexivity].
Defined.

(** X22: [_setup] raises [IndexError] on a table with an atomic number
    above 26: the loop that marks stage [Z - 1] in [_mask_2] indexes past
    the 26 stages, before the bin widths and the abundances are reached. *)
Theorem X22_setup_atomic_number_overflow (d : sigma_data)
    (abundance : list R) (ion_spec : R → list R → list R → nat → R)
    (σ : store) :
  (∃ i, (i < n_elem)%nat ∧ (n_stage < ld_atomicnumber d i)%nat) →
  _setup d abundance ion_spec σ = Raise IndexError.
Proof. apply setup_overflow. Qed.

Lemma X22_setup_atomic_number_overflow_witness :
  _setup {| ld_ion := _ion toy; ld_sigma := λ i j k, _sigma toy k j i;
            ld_atomicnumber := λ _, 30%nat; ld_energy := toy_energy |}
    (replicate n_elem 1) (calc_ion_spec_numba toy) toy_store
  = Raise IndexError.
Proof.
  apply (X22_setup_atomic_number_overflow
    {| ld_ion := _ion toy; ld_sigma := λ i j k, _sigma toy k j i;
       ld_atomicnumber := λ _, 30%nat; ld_energy := toy_energy |}).
  exists 0%nat. split; [unfold n_elem; lia|]. unfold n_stage. simpl. lia.
Defined.

(** X15: for an atomic number [Z] between 1 and 26 the valid stages are
    exactly 0 .. Z-1, [_mask_2] marks exactly stage [Z - 1], and that
    stage alone takes the hydrogenic recombination rate [arec2]. *)
Theorem X15_hydrogenic_stage (self : Absori) (temp : R) (i j : nat) :
  (1 ≤ _atomicnumber self i ≤ n_stage)%nat →
  (_mask_valid self i j = true ↔ (j < _atomicnumber self i)%nat) ∧
  (_mask_2 self i j = true ↔ j = (_atomicnumber self i - 1)%nat) ∧
  arec self temp i j =
    if decide (j = _atomicnumber self i - 1)%nat then arec2 self temp i
    else arec_general self temp i j.
Proof.
  intros HZ. split_and!.
  - split.
    + intros Hv. destruct (decide (j < _atomicnumber self i)%nat); [done|].
      rewrite mask_valid_false in Hv by (done || lia). done.
    + by apply mask_valid_true.
  - rewrite mask_2_spec by done. apply bool_decide_eq_true.
  - by apply arec_cases.
Qed.

Lemma X15_hydrogenic_stage_witness :
  (_mask_valid toy 9 25 = true ↔ (25 < _atomicnumber toy 9)%nat) ∧
  (_mask_2 toy 9 25 = true ↔ 25%nat = (_atomicnumber toy 9 - 1)%nat) ∧
  arec toy 10000 9 25 =
    if decide (25 = _atomicnumber toy 9 - 1)%nat then arec2 toy 10000 9
    else arec_general toy 10000 9 25.
Proof. apply (X15_hydrogenic_stage toy 10000 9 25). toy_nat. Defined.

(** ** [Integrate_Absori.evaluate] *)

(** X16: from a source redshift of 0.02 on there is at least one shell,
    the shells tile the interval from 0 to the source ([nz * zsam] is the
    redshift), and the shell width lies in [0.02, 0.04). *)
Theorem X16_shell_width (redshift : R) :
  0.02 <= redshift →
  ∃ zsam,
    np.truediv redshift (np.int (redshift / 0.02)) = Ok zsam ∧
    (1 ≤ np.int (redshift / 0.02))%Z ∧
    IZR (np.int (redshift / 0.02)) * zsam = redshift ∧
    0.02 <= zsam < 0.04.
Proof. apply shell_width. Qed.

Lemma X16_shell_width_witness :
  ∃ zsam,
    np.truediv 0.05 (np.int (0.05 / 0.02)) = Ok zsam ∧
    (1 ≤ np.int (0.05 / 0.02))%Z ∧
    IZR (np.int (0.05 / 0.02)) * zsam = 0.05 ∧
    0.02 <= zsam < 0.04.
Proof. apply (X16_shell_width 0.05). lra. Defined.

(** X17: with at least one shell, a density [n0 >= 0] and nonnegative
    tables, the integrated model returns one transmission per energy, each
    in the closed interval [0, 1], and leaves the stored abundances as they
    were. *)
Theorem X17_integrated_transmission_range (self : Absori) (σ : store)
    (a x : list R)
    (n0 delta redshift temp xi gamma abundance fe_abundance : R) :
  length (_base_energy self) = n_bin →
  (∀ k, (S k < n_bin)%nat →
     nth k (_base_energy self) 0 < nth (S k) (_base_energy self) 0) →
  (∀ k j i, 0 <= _sigma self k j i) →
  σ !! _abundance self = Some a → length a = n_elem →
  Forall (λ v, 0 <= v) a →
  0 <= n0 → 0.02 <= redshift →
  ∃ out σ',
    Integrate_Absori.evaluate self x n0 delta redshift temp xi gamma
      abundance fe_abundance σ = Ok (out, σ') ∧
    length out = length x ∧ Forall (λ t, 0 <= t <= 1) out ∧
    σ' !! _abundance self = Some a.
Proof. apply integrate_evaluate_range. Qed.

Lemma X17_integrated_transmission_range_witness :
  ∃ out σ',
    Integrate_Absori.evaluate toy [0.3; 2] 0.0001 0 1 10000 1 2 0 0 toy_store
      = Ok (out, σ') ∧
    length out = length [0.3; 2] ∧ Forall (λ t, 0 <= t <= 1) out ∧
    σ' !! _abundance toy = Some (replicate n_elem 1).
Proof.
  apply (X17_integrated_transmission_range toy toy_store
           (replicate n_elem 1) [0.3; 2] 0.0001 0 1 10000 1 2 0 0).
  - apply toy_energy_length.
  - apply toy_energy_increasing.
  - apply toy_sigma_nonneg.
  - apply toy_store_abundance.
  - reflexivity.
  - apply toy_abundance_nonneg.
  - lra.
  - lra.
Defined.

(** X18: with at least one shell and [n0 = 0] every transmission of the
    integrated model is exactly 1. *)
Theorem X18_empty_medium (self : Absori) (σ : store) (a x : list R)
    (delta redshift temp xi gamma abundance fe_abundance : R) :
  length (_base_energy self) = n_bin →
  σ !! _abundance self = Some a → length a = n_elem →
  0.02 <= redshift →
  Integrate_Absori.evaluate self x 0 delta redshift temp xi gamma
    abundance fe_abundance σ
  = Ok (replicate (length x) 1,
        <[fresh (dom σ) := adjusted a abundance fe_abundance]> σ).
Proof. apply integrate_evaluate_empty_medium. Qed.

Lemma X18_empty_medium_witness :
  Integrate_Absori.evaluate toy [0.3; 2] 0 0 1 10000 1 2 0 0 toy_store
  = Ok (replicate (length [0.3; 2]) 1,
        <[fresh (dom toy_store) := adjusted (replicate n_elem 1) 0 0]>
          toy_store).
Proof.
  apply (X18_empty_medium toy toy_store (replicate n_elem 1) [0.3; 2]
           0 1 10000 1 2 0 0).
  - apply toy_energy_length.
  - apply toy_store_abundance.
  - reflexivity.
  - lra.
Defined.

(** ** [_load_sigma] *)

(** X19: a table of at most 10 groups of at most 26 rows loads: group [g]
    becomes element [g] with the group's [Z] as atomic number, row [s] of
    the group becomes stage [s] (whatever its [ION] column says), with
    coefficients 1, 3, 4 and 6 scaled by 1e10, 1e4, 1e-4 and 1e-4 and every
    cross-section divided by 6.6e-27; all other entries of [ion] and
    [sigma] are 0, and the atomic numbers past the last group are left as
    [np.empty] made them. *)
Theorem X19_load_sigma_groups (unset : nat → Z)
    (gs : list (list fits_row)) (energy : list R) :
  grouped (-1) gs →
  (length gs ≤ n_elem)%nat →
  Forall (λ grp, (length grp ≤ n_stage)%nat) gs →
  ∃ d,
    _load_sigma unset (concat gs) energy = Ok d ∧
    energy_ d = energy ∧
    (∀ g, atomicnumber_ d g
          = match gs !! g with
            | Some grp => group_Z grp
            | None => unset g
            end) ∧
    (∀ g s k, ion_ d g s k
          = match gs !! g ≫= (λ grp, grp !! s) with
            | Some r => if decide (k < 10)%nat
                        then converted k (row_IONDATA r k) else 0
            | None => 0
            end) ∧
    (∀ g s k, sigma_ d g s k
          = match gs !! g ≫= (λ grp, grp !! s) with
            | Some r => if decide (k < n_bin)%nat
                        then row_SIGMA r k / 6.6e-27 else 0
            | None => 0
            end).
Proof. apply load_sigma_groups. Qed.

Lemma X19_load_sigma_groups_witness :
  ∃ d,
    _load_sigma (λ _, 0%Z) (concat two_elements) toy_energy = Ok d ∧
    energy_ d = toy_energy ∧
    (∀ g, atomicnumber_ d g
          = match two_elements !! g with
            | Some grp => group_Z grp
            | None => 0%Z
            end) ∧
    (∀ g s k, ion_ d g s k
          = match two_elements !! g ≫= (λ grp, grp !! s) with
            | Some r => if decide (k < 10)%nat
                        then converted k (row_IONDATA r k) else 0
            | None => 0
            end) ∧
    (∀ g s k, sigma_ d g s k
          = match two_elements !! g ≫= (λ grp, grp !! s) with
            | Some r => if decide (k < n_bin)%nat
                        then row_SIGMA r k / 6.6e-27 else 0
            | None => 0
            end).
Proof.
  apply (X19_load_sigma_groups (λ _, 0%Z) two_elements toy_energy).
  - simpl. repeat split; try done; repeat constructor.
  - simpl. unfold n_elem. lia.
  - repeat constructor; simpl; unfold n_stage; lia.
Defined.

(** X20: a table with more than 10 groups, or with a group of more than
    26 rows, makes [_load_sigma] raise [IndexError]. *)
Theorem X20_load_sigma_overflow (unset : nat → Z)
    (gs : list (list fits_row)) (energy : list R) :
  grouped (-1) gs →
  (n_elem < length gs)%nat ∨ Exists (λ grp, (n_stage < length grp)%nat) gs →
  _load_sigma unset (concat gs) energy = Raise IndexError.
Proof. apply load_sigma_overflow. Qed.

Lemma X20_load_sigma_overflow_witness :
  _load_sigma (λ _, 0%Z)
    (concat [replicate 27
               {| row_Z := 26; row_IONDATA := λ _, 1; row_SIGMA := λ _, 0 |}])
    toy_energy
  = Raise IndexError.
Proof.
  apply (X20_load_sigma_overflow (λ _, 0%Z)
    [replicate 27
       {| row_Z := 26; row_IONDATA := λ _, 1; row_SIGMA := λ _, 0 |}]).
  - simpl. repeat split; try done. repeat constructor.
  - right. constructor. simpl. unfold n_stage. lia.
Defined.

(** X21: the loader fails by overflow only.  A table whose first [Z] is
    not -1 splits into groups of equal neighbouring [Z], and
    [_load_sigma] raises [IndexError] exactly when there are more than 10
    groups or a group has more than 26 rows. *)
Theorem X21_load_sigma_fails_by_overflow_only (unset : nat → Z)
    (r : fits_row) (rows : list fits_row) (energy : list R) :
  row_Z r ≠ (-1)%Z →
  ∃ gs,
    concat gs = r :: rows ∧ grouped (-1) gs ∧
    (_load_sigma unset (r :: rows) energy = Raise IndexError
     ↔ (n_elem < length gs)%nat
       ∨ Exists (λ grp, (n_stage < length grp)%nat) gs).
Proof. apply load_sigma_fails_by_overflow_only. Qed.

Lemma X21_load_sigma_fails_by_overflow_only_witness :
  ∃ gs,
    concat gs = concat two_elements ∧ grouped (-1) gs ∧
    (_load_sigma (λ _, 0%Z) (concat two_elements) toy_energy
       = Raise IndexError
     ↔ (n_elem < length gs)%nat
       ∨ Exists (λ grp, (n_stage < length grp)%nat) gs).
Proof.
  apply (X21_load_sigma_fails_by_overflow_only (λ _, 0%Z)
    {| row_Z := 1; row_IONDATA := λ k, INR k; row_SIGMA := λ _, 6.6e-27 |}).
  simpl. lia.
Defined.
